(** * The sentence/audio timeline editor of the AI dubbing tool

    A shallow embedding of the client-side editor:

    - [Sentence]: the sentence segments, [updateSentence] of
      [src/hooks/useDubbingTool.js], [getSentenceAtTime] of
      [src/components/AudioEditor.js] and [handleDialogueRefine] of the
      sentence timeline component;
    - [Engine]: the playback part of [src/components/AudioEditor.js]
      (play, pause, seek, the remote loads) over a small model of the Web
      Audio context it drives;
    - [Run] and [Loop]: the handlers as steps, and the event loop they run
      in: the [ended] events of the sources they stop, and the tasks of the
      [async] loads;
    - [Wav]: [audioBufferToWav] of [src/utils/videoUtils.js] over a model of
      [DataView].

    JavaScript numbers that hold seconds, samples or pixel coordinates are
    modelled by the rationals [Q]: the finite values, with exact arithmetic
    where the machine rounds.  [NaN] and the infinities are left out; where
    the source can only produce them from a degenerate input (a progress bar
    of width zero), the statements carry the hypothesis that excludes it.
    Integers (ids, byte values, header fields, the millisecond clock) are
    [Z].

    A function of the component reads the state of the render it was created
    in and the refs as they are when it runs; it is modelled as a function of
    that render's state and of the component instance.  An [async] function
    of [Engine] is one step from its call to its completion, given what the
    network and the decoder answer: the case in which nothing else runs
    while it waits.  [Loop] has the loads task by task, with the [ended]
    events that are dispatched in between.  [console] output and the debugging helpers of the
    editor ([testModifiedAudio], [clearAudioCacheAndReload],
    [testAudioLoadingDirectly], [debugAudioUrls]) are not modelled. *)

From Stdlib Require Import ZArith QArith Qminmax Qabs Lia String Ascii.
From Stdlib Require Import DecimalString DecimalZ Qround Lqa.
From stdpp Require Import base option list strings.

(** ** Decoded audio *)

Module AudioBuffer.

(** The Web Audio [AudioBuffer]: [channels] holds one list of samples per
    channel, what [getChannelData(c)] returns. *)
Record t := mk {
  sampleRate : Z;
  length : nat;
  channels : list (list Q)
}.

Definition numberOfChannels (b : t) : nat := List.length (channels b).

(** [duration] is [length / sampleRate] seconds. *)
Definition duration (b : t) : Q :=
  (inject_Z (Z.of_nat (length b)) / inject_Z (sampleRate b))%Q.

(** Every channel of an [AudioBuffer] holds [length] samples. *)
Definition wf (b : t) : Prop :=
  Forall (fun ch => List.length ch = length b) (channels b).

End AudioBuffer.

(** ** JavaScript values used by the editor *)

(** An optional string property: [None] is [undefined] (or [null]). *)
Definition truthy (u : option string) : bool :=
  match u with
  | Some s => negb (String.eqb s "")
  | None => false
  end.

(** [a || b] on optional strings. *)
Definition js_or (a b : option string) : option string :=
  if truthy a then a else b.

(** [`${n}`] for an integer [n]. *)
Definition decimal (n : Z) : string := NilZero.string_of_int (Z.to_int n).

(** ** The sentence model *)

Module Sentence.

Record SentenceSegment := mkSentence {
  id : Z;
  startTime : Q;
  duration : Q;
  originalText : string;
  translatedText : string;
  audioUrl : option string;
  modifiedAudioUrl : option string;
  isRefined : bool;
  dubbedAudio : option string;
  modifiedAudioPath : option string;
  refinedAt : option string;
  referenceAudioPath : option string
}.

(** The object passed as [updates]: a field that is [None] is a key the
    object does not have; for the optional properties [Some None] is a key
    whose value is [undefined]. *)
Record Updates := mkUpdates {
  u_id : option Z;
  u_startTime : option Q;
  u_duration : option Q;
  u_originalText : option string;
  u_translatedText : option string;
  u_audioUrl : option (option string);
  u_modifiedAudioUrl : option (option string);
  u_isRefined : option bool;
  u_dubbedAudio : option (option string);
  u_modifiedAudioPath : option (option string);
  u_refinedAt : option (option string);
  u_referenceAudioPath : option (option string)
}.

(** The object with no key. *)
Definition no_updates : Updates :=
  mkUpdates None None None None None None None None None None None None.

(** [{ ...sentence, ...updates }] *)
Definition spread (sentence : SentenceSegment) (updates : Updates)
  : SentenceSegment :=
  {| id := default (id sentence) (u_id updates);
     startTime := default (startTime sentence) (u_startTime updates);
     duration := default (duration sentence) (u_duration updates);
     originalText := default (originalText sentence) (u_originalText updates);
     translatedText :=
       default (translatedText sentence) (u_translatedText updates);
     audioUrl := default (audioUrl sentence) (u_audioUrl updates);
     modifiedAudioUrl :=
       default (modifiedAudioUrl sentence) (u_modifiedAudioUrl updates);
     isRefined := default (isRefined sentence) (u_isRefined updates);
     dubbedAudio := default (dubbedAudio sentence) (u_dubbedAudio updates);
     modifiedAudioPath :=
       default (modifiedAudioPath sentence) (u_modifiedAudioPath updates);
     refinedAt := default (refinedAt sentence) (u_refinedAt updates);
     referenceAudioPath :=
       default (referenceAudioPath sentence) (u_referenceAudioPath updates)
  |}.

(** [updateSentence] of the hook: the functional update it hands to
    [setSentences]. *)
Definition updateSentence (sentenceId : Z) (updates : Updates)
    (prevSentences : list SentenceSegment) : list SentenceSegment :=
  List.map (fun sentence =>
              if Z.eqb (id sentence) sentenceId
              then spread sentence updates
              else sentence)
           prevSentences.

(** The predicate of [getSentenceAtTime]:
    [time >= startTime && time <= startTime + duration]. *)
Definition at_time (time : Q) (sentence : SentenceSegment) : bool :=
  Qle_bool (startTime sentence) time
  && Qle_bool time (startTime sentence + duration sentence).

(** [sentences.find(...)]; [None] is [undefined]. *)
Definition getSentenceAtTime (sentences : list SentenceSegment) (time : Q)
  : option SentenceSegment :=
  List.find (at_time time) sentences.

(** The closed interval of a segment, as the specification words it:
    [startTime <= time <= startTime + duration]. *)
Definition in_interval (time : Q) (sentence : SentenceSegment) : Prop :=
  (startTime sentence <= time)%Q /\
  (time <= startTime sentence + duration sentence)%Q.

(** A property of the merged object: the value of the key when [updates]
    has it, the old value otherwise. *)
Definition merged_field {A : Type} (old : A) (update : option A) (new : A)
  : Prop :=
  match update with
  | Some v => new = v
  | None => new = old
  end.

(** [sentence'] is [sentence] with the fields of [updates] merged in and
    every other field unchanged, as the specification words it. *)
Definition merged (sentence : SentenceSegment) (updates : Updates)
    (sentence' : SentenceSegment) : Prop :=
  merged_field (id sentence) (u_id updates) (id sentence') /\
  merged_field (startTime sentence) (u_startTime updates)
               (startTime sentence') /\
  merged_field (duration sentence) (u_duration updates)
               (duration sentence') /\
  merged_field (originalText sentence) (u_originalText updates)
               (originalText sentence') /\
  merged_field (translatedText sentence) (u_translatedText updates)
               (translatedText sentence') /\
  merged_field (audioUrl sentence) (u_audioUrl updates)
               (audioUrl sentence') /\
  merged_field (modifiedAudioUrl sentence) (u_modifiedAudioUrl updates)
               (modifiedAudioUrl sentence') /\
  merged_field (isRefined sentence) (u_isRefined updates)
               (isRefined sentence') /\
  merged_field (dubbedAudio sentence) (u_dubbedAudio updates)
               (dubbedAudio sentence') /\
  merged_field (modifiedAudioPath sentence) (u_modifiedAudioPath updates)
               (modifiedAudioPath sentence') /\
  merged_field (refinedAt sentence) (u_refinedAt updates)
               (refinedAt sentence') /\
  merged_field (referenceAudioPath sentence) (u_referenceAudioPath updates)
               (referenceAudioPath sentence').

(** *** The audio half of a refinement *)

(** The JSON body of a successful [/api/reprocess-sentence] response. *)
Record ReprocessResult := mkResult {
  sentenceAudioPath : option string;
  audioPath : option string;
  sentenceAudioUrl : option string;
  r_audioUrl : option string;
  r_modifiedAudioPath : option string;
  r_modifiedAudioUrl : option string
}.

(** What the [fetch] of [handleDialogueRefine] and the [response.json()]
    after it come to. *)
Inductive ReprocessOutcome :=
| FetchRejected                      (* network failure: [fetch] throws *)
| NotOk                              (* [response.ok] is false *)
| JsonRejected                       (* [response.json()] throws *)
| Reprocessed (result : ReprocessResult).

(** The reprocessing request did not deliver audio. *)
Definition failed (outcome : ReprocessOutcome) : Prop :=
  match outcome with
  | Reprocessed _ => False
  | _ => True
  end.

Definition text_update (refinedText : string) : Updates :=
  {| u_id := None; u_startTime := None; u_duration := None;
     u_originalText := None;
     u_translatedText := Some refinedText;
     u_audioUrl := None; u_modifiedAudioUrl := None;
     u_isRefined := Some true;
     u_dubbedAudio := None; u_modifiedAudioPath := None;
     u_refinedAt := None; u_referenceAudioPath := None |}.

Definition audio_update (refinedText : string) (result : ReprocessResult)
    (isoNow : string) : Updates :=
  {| u_id := None; u_startTime := None; u_duration := None;
     u_originalText := None;
     u_translatedText := Some refinedText;
     u_audioUrl := Some (js_or (sentenceAudioUrl result) (r_audioUrl result));
     u_modifiedAudioUrl := Some (r_modifiedAudioUrl result);
     u_isRefined := Some true;
     u_dubbedAudio :=
       Some (js_or (sentenceAudioPath result) (audioPath result));
     u_modifiedAudioPath := Some (r_modifiedAudioPath result);
     u_refinedAt := Some (Some isoNow);
     u_referenceAudioPath := None |}.

(** [handleDialogueRefine], with [onSentenceUpdate] bound to
    [updateSentence] as the application wires it.  [refiningSentence] is
    the component's state ([None] is [null]), [isoNow] what
    [new Date().toISOString()] returns.  The result is the sentence list
    after the updates the handler queued. *)
Definition handleDialogueRefine (refiningSentence : option SentenceSegment)
    (refinedText : string) (outcome : ReprocessOutcome) (isoNow : string)
    (sentences : list SentenceSegment) : list SentenceSegment :=
  match refiningSentence with
  | None => sentences
  | Some target =>
      let sentences1 :=
        updateSentence (id target) (text_update refinedText) sentences in
      match outcome with
      | Reprocessed result =>
          updateSentence (id target)
            (audio_update refinedText result isoNow) sentences1
      | NotOk => sentences1
      | FetchRejected | JsonRejected =>
          updateSentence (id target) (text_update refinedText) sentences1
      end
  end.

End Sentence.

(** ** The playback engine of the audio editor *)

Module Engine.

Local Open Scope Q_scope.

Inductive AudioType :=
| original | individual | modified | complete | exported | test.

(** *** The Web Audio context *)

(** What [source.onended] is set to. *)
Inductive OnEnded :=
| ResetPlayback      (* [setIsPlaying(false); setCurrentTime(0)] *)
| LogOnly.

(** A started [AudioBufferSourceNode], with the gain stage it is connected
    through and the offset it was started at. *)
Record Source := mkSource {
  src_id : nat;
  src_buffer : AudioBuffer.t;
  src_gain : Q;
  src_offset : Q;
  src_onended : OnEnded
}.

(** [ctx_playing] is the context's registry of sources that were started
    and have neither been stopped nor run out. *)
Record AudioContext := mkContext {
  ctx_currentTime : Q;
  ctx_suspended : bool;
  ctx_created : nat;
  ctx_playing : list Source
}.

Definition createBufferSource (c : AudioContext) : nat * AudioContext :=
  (ctx_created c,
   mkContext (ctx_currentTime c) (ctx_suspended c) (S (ctx_created c))
             (ctx_playing c)).

Definition start (src : Source) (c : AudioContext) : AudioContext :=
  mkContext (ctx_currentTime c) (ctx_suspended c) (ctx_created c)
            (ctx_playing c ++ [src]).

(** [source.stop()], as far as the registry goes; the [ended] event the
    platform then sends the source is dispatched by [Loop.dispatchEnded]. *)
Definition stop (n : nat) (c : AudioContext) : AudioContext :=
  mkContext (ctx_currentTime c) (ctx_suspended c) (ctx_created c)
            (List.filter (fun src => negb (Nat.eqb (src_id src) n))
                         (ctx_playing c)).

Definition resume (c : AudioContext) : AudioContext :=
  mkContext (ctx_currentTime c) false (ctx_created c) (ctx_playing c).

(** The context's clock moves on by [dt] seconds. *)
Definition advance (dt : Q) (c : AudioContext) : AudioContext :=
  mkContext (ctx_currentTime c + dt) (ctx_suspended c) (ctx_created c)
            (ctx_playing c).

(** *** The network and the decoder *)

Inductive FetchResult :=
| NetworkError
| Response (status : Z) (body : list Z).

(** [response.ok] *)
Definition ok (status : Z) : bool :=
  ((200 <=? status) && (status <=? 299))%Z.

(** [decodeAudioData] yields [None] where the promise is rejected. *)
Record Env := mkEnv {
  fetch : string -> FetchResult;
  decodeAudioData : list Z -> option AudioBuffer.t
}.

(** *** The component *)

(** The [useState] values the functions below read or set: what one render
    of the component closes over. *)
Record State := mkState {
  isPlaying : bool;
  currentTime : Q;
  duration : Q;
  volume : Q;
  isMuted : bool;
  currentAudioType : AudioType
}.

(** A callback handed to [setTimeout]: [playAudio] of the render whose
    state is [timer_render]. *)
Record Timer := mkTimer {
  timer_delay : nat;
  timer_render : State
}.

(** The component instance: the state after the updates queued so far, the
    [useRef] cells, the pending animation frames (each the
    [updatePlaybackTime] of some render) and timers, and the URLs requested
    from the network, oldest first. *)
Record Editor := mkEditor {
  state : State;
  audioContextRef : option AudioContext;
  audioBufferRef : option AudioBuffer.t;
  sourceNodeRef : option nat;
  startTimeRef : Q;
  animationFrameRef : option nat;
  frames : list (nat * State);
  frames_requested : nat;
  timers : list Timer;
  requests : list string
}.

(** The props the functions below read. *)
Record Props := mkProps {
  sentences : list Sentence.SentenceSegment;
  processedAudio : option (list Z)
}.

(** The state setters. *)
Definition with_state (f : State -> State) (e : Editor) : Editor :=
  mkEditor (f (state e)) (audioContextRef e) (audioBufferRef e)
           (sourceNodeRef e) (startTimeRef e) (animationFrameRef e)
           (frames e) (frames_requested e) (timers e) (requests e).

Definition setIsPlaying (b : bool) : Editor -> Editor :=
  with_state (fun s => mkState b (currentTime s) (duration s) (volume s)
                               (isMuted s) (currentAudioType s)).

Definition setCurrentTime (t : Q) : Editor -> Editor :=
  with_state (fun s => mkState (isPlaying s) t (duration s) (volume s)
                               (isMuted s) (currentAudioType s)).

Definition setDuration (d : Q) : Editor -> Editor :=
  with_state (fun s => mkState (isPlaying s) (currentTime s) d (volume s)
                               (isMuted s) (currentAudioType s)).

Definition setCurrentAudioType (a : AudioType) : Editor -> Editor :=
  with_state (fun s => mkState (isPlaying s) (currentTime s) (duration s)
                               (volume s) (isMuted s) a).

(** Assignments to the refs. *)
Definition set_audioContextRef (c : option AudioContext) (e : Editor)
  : Editor :=
  mkEditor (state e) c (audioBufferRef e) (sourceNodeRef e) (startTimeRef e)
           (animationFrameRef e) (frames e) (frames_requested e) (timers e)
           (requests e).

Definition set_audioBufferRef (b : option AudioBuffer.t) (e : Editor)
  : Editor :=
  mkEditor (state e) (audioContextRef e) b (sourceNodeRef e) (startTimeRef e)
           (animationFrameRef e) (frames e) (frames_requested e) (timers e)
           (requests e).

Definition set_sourceNodeRef (n : option nat) (e : Editor) : Editor :=
  mkEditor (state e) (audioContextRef e) (audioBufferRef e) n
           (startTimeRef e) (animationFrameRef e) (frames e)
           (frames_requested e) (timers e) (requests e).

Definition set_startTimeRef (t : Q) (e : Editor) : Editor :=
  mkEditor (state e) (audioContextRef e) (audioBufferRef e)
           (sourceNodeRef e) t (animationFrameRef e) (frames e)
           (frames_requested e) (timers e) (requests e).

(** [animationFrameRef.current = requestAnimationFrame(updatePlaybackTime)]
    in the render [r]; frame ids are not zero. *)
Definition requestAnimationFrame (r : State) (e : Editor) : Editor :=
  let n := S (frames_requested e) in
  mkEditor (state e) (audioContextRef e) (audioBufferRef e)
           (sourceNodeRef e) (startTimeRef e) (Some n)
           (frames e ++ [(n, r)]) n (timers e) (requests e).

Definition cancelAnimationFrame (n : nat) (e : Editor) : Editor :=
  mkEditor (state e) (audioContextRef e) (audioBufferRef e)
           (sourceNodeRef e) (startTimeRef e) (animationFrameRef e)
           (List.filter (fun f => negb (Nat.eqb (fst f) n)) (frames e))
           (frames_requested e) (timers e) (requests e).

Definition setTimeout (t : Timer) (e : Editor) : Editor :=
  mkEditor (state e) (audioContextRef e) (audioBufferRef e)
           (sourceNodeRef e) (startTimeRef e) (animationFrameRef e)
           (frames e) (frames_requested e) (timers e ++ [t]) (requests e).

Definition set_timers (ts : list Timer) (e : Editor) : Editor :=
  mkEditor (state e) (audioContextRef e) (audioBufferRef e)
           (sourceNodeRef e) (startTimeRef e) (animationFrameRef e)
           (frames e) (frames_requested e) ts (requests e).

(** A request leaves for [url]. *)
Definition request (url : string) (e : Editor) : Editor :=
  mkEditor (state e) (audioContextRef e) (audioBufferRef e)
           (sourceNodeRef e) (startTimeRef e) (animationFrameRef e)
           (frames e) (frames_requested e) (timers e) (requests e ++ [url]).

(** The component as mounted, [audioContextRef] set when the browser has
    an [AudioContext]. *)
Definition mount (ctx : option AudioContext) : Editor :=
  mkEditor (mkState false 0 0 1 false original) ctx None None 0 None [] 0
           [] [].

(** [if (sourceNodeRef.current) { sourceNodeRef.current.stop();
    sourceNodeRef.current = null; }] *)
Definition stopSourceNode (e : Editor) : Editor :=
  match sourceNodeRef e with
  | Some n =>
      set_sourceNodeRef None
        (set_audioContextRef (stop n <$> audioContextRef e) e)
  | None => e
  end.

Definition pauseAudio (e : Editor) : Editor :=
  let e1 := stopSourceNode e in
  let e2 := match animationFrameRef e1 with
            | Some n => cancelAnimationFrame n e1
            | None => e1
            end in
  setIsPlaying false e2.

(** [updatePlaybackTime] of the render [r]. *)
Definition updatePlaybackTime (r : State) (e : Editor) : Editor :=
  if isPlaying r then
    match audioContextRef e with
    | Some c =>
        let newTime := ctx_currentTime c - startTimeRef e in
        let e1 := setCurrentTime (Qmax 0 newTime) e in
        if Qle_bool (duration r) newTime
        then setCurrentTime 0 (setIsPlaying false e1)
        else requestAnimationFrame r e1
    | None => e
    end
  else e.

(** [playAudio] of the render [r]. *)
Definition playAudio (r : State) (e : Editor) : Editor :=
  match audioContextRef e, audioBufferRef e with
  | Some _, Some audioBuffer =>
      let e1 := stopSourceNode e in
      match audioContextRef e1 with
      | Some c =>
          let c1 := if ctx_suspended c then resume c else c in
          let (n, c2) := createBufferSource c1 in
          let source :=
            mkSource n audioBuffer (if isMuted r then 0 else volume r)
                     (currentTime r) ResetPlayback in
          let e2 := set_sourceNodeRef (Some n) e1 in
          let e3 :=
            set_startTimeRef (ctx_currentTime c2 - currentTime r) e2 in
          let e4 := set_audioContextRef (Some (start source c2)) e3 in
          updatePlaybackTime r (setIsPlaying true e4)
      | None => e1
      end
  | _, _ => e
  end.

(** The handler a source carries, run when the platform dispatches its
    [ended] event. *)
Definition onended (h : OnEnded) (e : Editor) : Editor :=
  match h with
  | ResetPlayback => setCurrentTime 0 (setIsPlaying false e)
  | LogOnly => e
  end.

(** The pointer event [handleSeek] reads: [e.clientX] and the bounding
    rectangle of the progress bar. *)
Record MouseEvent := mkMouseEvent {
  clientX : Q;
  rect_left : Q;
  rect_width : Q
}.

(** [handleSeek] of the render [r]. *)
Definition handleSeek (r : State) (ev : MouseEvent) (e : Editor) : Editor :=
  if Qeq_bool (duration r) 0 then e
  else
    let clickX := clientX ev - rect_left ev in
    let percentage := Qmax 0 (Qmin 1 (clickX / rect_width ev)) in
    let newTime := percentage * duration r in
    let e1 := setCurrentTime newTime e in
    if isPlaying r
    then setTimeout (mkTimer 50 r) (pauseAudio e1)
    else e1.

(** The oldest pending timer fires. *)
Definition fire_timer (e : Editor) : Editor :=
  match timers e with
  | t :: ts => playAudio (timer_render t) (set_timers ts e)
  | [] => e
  end.

(** The oldest pending animation frame runs. *)
Definition fire_frame (e : Editor) : Editor :=
  match frames e with
  | (_, r) :: fs =>
      updatePlaybackTime r
        (mkEditor (state e) (audioContextRef e) (audioBufferRef e)
                  (sourceNodeRef e) (startTimeRef e) (animationFrameRef e)
                  fs (frames_requested e) (timers e) (requests e))
  | [] => e
  end.

(** The clock of the context moves on by [dt] seconds. *)
Definition elapse (dt : Q) (e : Editor) : Editor :=
  set_audioContextRef (advance dt <$> audioContextRef e) e.

(** *** Loading *)

(** The text a template literal gives an optional string. *)
Definition url_text (u : option string) : string := default "undefined" u.

(** [`${url}?t=${Date.now()}`], [now] being what [Date.now()] returned. *)
Definition cacheBustedUrl (url : string) (now : Z) : string :=
  url +:+ "?t=" +:+ decimal now.

(** The assignments after a successful decode in [loadAudioFromUrl]. *)
Definition install (audioBuffer : AudioBuffer.t) (audioType : AudioType)
    (e : Editor) : Editor :=
  setCurrentTime 0
    (setCurrentAudioType audioType
       (setDuration (AudioBuffer.duration audioBuffer)
          (set_audioBufferRef (Some audioBuffer) e))).

(** [loadAudioFromUrl] of the render [r], when nothing else runs while it
    waits; [Loop.loadAudioFromUrl_tasks] has it task by task.  Every
    failure ends in the [catch], which logs; the promise resolves to
    [undefined] either way, so the result is the component alone. *)
Definition loadAudioFromUrl (r : State) (env : Env) (audioUrl : string)
    (audioType : AudioType) (e : Editor) : Editor :=
  let e1 := if isPlaying r then pauseAudio e else e in
  let e2 := stopSourceNode e1 in
  let e3 := request audioUrl e2 in
  match fetch env audioUrl with
  | NetworkError => e3
  | Response status body =>
      if ok status then
        match audioContextRef e3 with
        | Some _ =>
            match decodeAudioData env body with
            | Some audioBuffer => install audioBuffer audioType e3
            | None => e3
            end
        | None => e3
        end
      else e3
  end.

(** [loadAudioBuffer], [audioFile] being the bytes of the file. *)
Definition loadAudioBuffer (env : Env) (audioFile : list Z) (e : Editor)
  : Editor :=
  match audioContextRef e with
  | Some _ =>
      match decodeAudioData env audioFile with
      | Some audioBuffer =>
          setCurrentTime 0
            (setDuration (AudioBuffer.duration audioBuffer)
               (set_audioBufferRef (Some audioBuffer) e))
      | None => e
      end
  | None => e
  end.

Definition hasModifiedAudioUrl (s : Sentence.SentenceSegment) : bool :=
  truthy (Sentence.modifiedAudioUrl s).

Definition hasAudioUrl (s : Sentence.SentenceSegment) : bool :=
  truthy (Sentence.audioUrl s).

(** The effect on [sentences]: with no buffer loaded, the clip of the
    first sentence that has one is loaded as the original audio. *)
Definition sentencesEffect (r : State) (props : Props) (env : Env) (now : Z)
    (e : Editor) : Editor :=
  match sentences props, audioContextRef e, audioBufferRef e with
  | _ :: _, Some _, None =>
      match List.find hasAudioUrl (sentences props) with
      | Some s =>
          loadAudioFromUrl r env
            (cacheBustedUrl (url_text (Sentence.audioUrl s)) now) original e
      | None => e
      end
  | _, _, _ => e
  end.

Definition loadModifiedFullAudio (r : State) (props : Props) (env : Env)
    (now : Z) (e : Editor) : Editor :=
  match List.find hasModifiedAudioUrl (sentences props) with
  | Some s =>
      loadAudioFromUrl r env
        (cacheBustedUrl (url_text (Sentence.modifiedAudioUrl s)) now)
        modified e
  | None => e
  end.

(** [playModifiedFullAudio]: the [playAudio] after the load is the one of
    the same render [r]. *)
Definition playModifiedFullAudio (r : State)
    (sentence : Sentence.SentenceSegment) (env : Env) (now : Z)
    (e : Editor) : Editor :=
  if hasModifiedAudioUrl sentence then
    playAudio r
      (loadAudioFromUrl r env
         (cacheBustedUrl (url_text (Sentence.modifiedAudioUrl sentence)) now)
         modified e)
  else e.

(** [loadCompleteAudio]; the boolean is what the promise resolves to. *)
Definition loadCompleteAudio (r : State) (props : Props) (env : Env)
    (now : Z) (e : Editor) : Editor * bool :=
  match List.find hasModifiedAudioUrl (sentences props) with
  | Some s =>
      (loadAudioFromUrl r env
         (cacheBustedUrl (url_text (Sentence.modifiedAudioUrl s)) now)
         complete e,
       true)
  | None =>
      match processedAudio props with
      | Some audioFile => (loadAudioBuffer env audioFile e, true)
      | None => (e, false)
      end
  end.

(** The start of [forceLoadCompleteAudio] and [loadExportedAudio]: playback
    is stopped and the current buffer is cleared. *)
Definition clearBuffer (r : State) (e : Editor) : Editor :=
  let e1 := if isPlaying r then pauseAudio e else e in
  let e2 := stopSourceNode e1 in
  setCurrentTime 0 (setDuration 0 (set_audioBufferRef None e2)).

(** [forceLoadCompleteAudio]; [now] is read after the 100 ms wait. *)
Definition forceLoadCompleteAudio (r : State) (props : Props) (env : Env)
    (now : Z) (e : Editor) : Editor * bool :=
  loadCompleteAudio r props env now (clearBuffer r e).

Definition loadExportedAudio (r : State) (exportedFilename : string)
    (env : Env) (now : Z) (e : Editor) : Editor * bool :=
  let audioUrl := "/api/download/" +:+ exportedFilename in
  (loadAudioFromUrl r env (cacheBustedUrl audioUrl now) exported
     (clearBuffer r e),
   true).

(** [playSentenceAudio] of the render [r]: the clip is fetched from the
    sentence's own URL, decoded and started on a source of its own. *)
Definition playSentenceAudio (r : State)
    (sentence : Sentence.SentenceSegment) (env : Env) (e : Editor)
  : Editor :=
  if hasAudioUrl sentence then
    let url := url_text (Sentence.audioUrl sentence) in
    let e1 := request url e in
    match fetch env url with
    | NetworkError => e1
    | Response status body =>
        if ok status then
          match audioContextRef e1 with
          | Some c =>
              match decodeAudioData env body with
              | Some audioBuffer =>
                  let (n, c1) := createBufferSource c in
                  let source :=
                    mkSource n audioBuffer
                             (if isMuted r then 0 else volume r) 0 LogOnly in
                  set_audioContextRef (Some (start source c1)) e1
              | None => e1
              end
          | None => e1
          end
        else e1
    end
  else e.

(** The sources the context is playing. *)
Definition playing (e : Editor) : list Source :=
  match audioContextRef e with
  | Some c => ctx_playing c
  | None => []
  end.

(** The registry holds nothing but the source [sourceNodeRef] points to:
    what [playAudio], [pauseAudio] and the loads keep. *)
Definition tracked (e : Editor) : Prop :=
  (List.length (playing e) <= 1)%nat /\
  forall src, In src (playing e) -> sourceNodeRef e = Some (src_id src).

(** The load of [url] fails, as the specification words it: the fetch
    fails (network error or a status outside 2xx) or the bytes do not
    decode. *)
Definition load_fails (env : Env) (url : string) : Prop :=
  match fetch env url with
  | NetworkError => True
  | Response status body =>
      ok status = false \/ decodeAudioData env body = None
  end.

(** Before the fetch, [loadAudioFromUrl] has stopped playback and nothing
    else; [quiet] is that component. *)
Definition quiet (r : State) (e : Editor) : Editor :=
  stopSourceNode (if isPlaying r then pauseAudio e else e).

End Engine.

(** ** The WAV encoder *)

Module Wav.

(** A [DataView] over an [ArrayBuffer]: its bytes. *)
Definition DataView := list Z.

(** [new ArrayBuffer(n)]: [n] zero bytes. *)
Definition ArrayBuffer (n : nat) : DataView := replicate n 0%Z.

(** The [n] low bytes of [value], least significant first. *)
Fixpoint le_bytes (n : nat) (value : Z) : list Z :=
  match n with
  | O => []
  | S k => (value mod 256)%Z :: le_bytes k (value / 256)%Z
  end.

(** A store of [bytes] at [byteOffset]: a [RangeError] ([None]) when they
    do not fit in the view. *)
Definition store (view : DataView) (byteOffset : nat) (bytes : list Z)
  : option DataView :=
  if decide (byteOffset + List.length bytes <= List.length view)%nat
  then Some (list_inserts byteOffset bytes view)
  else None.

Definition setUint8 (view : DataView) (byteOffset : nat) (value : Z)
  : option DataView :=
  store view byteOffset (le_bytes 1 value).

(** [setUint16(byteOffset, value, true)] *)
Definition setUint16 (view : DataView) (byteOffset : nat) (value : Z)
  : option DataView :=
  store view byteOffset (le_bytes 2 value).

(** [setUint32(byteOffset, value, true)] *)
Definition setUint32 (view : DataView) (byteOffset : nat) (value : Z)
  : option DataView :=
  store view byteOffset (le_bytes 4 value).

(** The integer part of a number, towards zero. *)
Definition Qtruncate (x : Q) : Z := Z.quot (Qnum x) (Zpos (Qden x)).

(** The conversion [setInt16] applies to its argument: truncation, then
    reduction modulo 2^16 into the signed range. *)
Definition ToInt16 (x : Q) : Z :=
  let k := (Qtruncate x mod 65536)%Z in
  if (32768 <=? k)%Z then (k - 65536)%Z else k.

(** [setInt16(byteOffset, value, true)]; [None] as the value is [NaN],
    which is stored as 0. *)
Definition setInt16 (view : DataView) (byteOffset : nat) (value : option Q)
  : option DataView :=
  store view byteOffset
        (le_bytes 2 (match value with Some x => ToInt16 x | None => 0%Z end)).

(** [writeString(offset, string)]: one [setUint8] per character. *)
Fixpoint writeString (view : DataView) (offset : nat) (string : string)
  : option DataView :=
  match string with
  | EmptyString => Some view
  | String c rest =>
      view' ← setUint8 view offset (Z.of_nat (nat_of_ascii c));
      writeString view' (S offset) rest
  end.

(** [Math.max(-1, Math.min(1, x))] *)
Definition clamp (x : Q) : Q := Qmax (-1) (Qmin 1 x).

(** [sample < 0 ? sample * 0x8000 : sample * 0x7FFF] *)
Definition scale (sample : Q) : Q :=
  match (sample ?= 0)%Q with
  | Lt => (sample * 32768)%Q
  | _ => (sample * 32767)%Q
  end.

(** [audioBuffer.getChannelData(channel)[i]]; [None] is [undefined]. *)
Definition getSample (audioBuffer : AudioBuffer.t) (channel i : nat)
  : option Q :=
  ch ← AudioBuffer.channels audioBuffer !! channel; ch !! i.

(** The argument of [setInt16] for one sample: an [undefined] sample makes
    it [NaN]. *)
Definition pcm (audioBuffer : AudioBuffer.t) (channel i : nat) : option Q :=
  (fun x => scale (clamp x)) <$> getSample audioBuffer channel i.

(** A [for] loop over [l] that threads [s] and stops at the first
    exception. *)
Fixpoint for_each {A S : Type} (body : A -> S -> option S) (l : list A)
    (s : S) : option S :=
  match l with
  | [] => Some s
  | a :: l' => s' ← body a s; for_each body l' s'
  end.

(** The body of the inner loop: the state is the view and [offset]. *)
Definition writeSample (audioBuffer : AudioBuffer.t) (i channel : nat)
    (s : DataView * nat) : option (DataView * nat) :=
  view' ← setInt16 s.1 s.2 (pcm audioBuffer channel i);
  Some (view', (s.2 + 2)%nat).

Definition writeHeader (numChannels sampleRate length : Z) (view : DataView)
  : option DataView :=
  view ← writeString view 0 "RIFF";
  view ← setUint32 view 4 (36 + length * numChannels * 2)%Z;
  view ← writeString view 8 "WAVE";
  view ← writeString view 12 "fmt ";
  view ← setUint32 view 16 16%Z;
  view ← setUint16 view 20 1%Z;
  view ← setUint16 view 22 numChannels;
  view ← setUint32 view 24 sampleRate;
  view ← setUint32 view 28 (sampleRate * numChannels * 2)%Z;
  view ← setUint16 view 32 (numChannels * 2)%Z;
  view ← setUint16 view 34 16%Z;
  view ← writeString view 36 "data";
  setUint32 view 40 (length * numChannels * 2)%Z.

(** [audioBufferToWav]: the bytes of the blob, [None] if a store threw. *)
Definition audioBufferToWav (audioBuffer : AudioBuffer.t)
  : option (list Z) :=
  let numChannels := AudioBuffer.numberOfChannels audioBuffer in
  let sampleRate := AudioBuffer.sampleRate audioBuffer in
  let length := AudioBuffer.length audioBuffer in
  let view := ArrayBuffer (44 + length * numChannels * 2) in
  view ← writeHeader (Z.of_nat numChannels) sampleRate (Z.of_nat length)
                     view;
  s ← for_each
        (fun i =>
           for_each (fun channel => writeSample audioBuffer i channel)
                    (seq 0 numChannels))
        (seq 0 length) (view, 44%nat);
  Some s.1.

(** The signed 16-bit integer two bytes hold, least significant first. *)
Definition getInt16 (lo hi : Z) : Z :=
  let k := (lo + 256 * hi)%Z in
  if (32768 <=? k)%Z then (k - 65536)%Z else k.

(** *** The file the encoder is to produce *)

(** The character codes of a string, as bytes. *)
Definition codes (s : string) : list Z :=
  (fun c => (Z.of_nat (nat_of_ascii c) mod 256)%Z) <$> list_ascii_of_string s.

(** The 44 bytes of the RIFF/WAVE header for 16-bit PCM. *)
Definition wav_header (numChannels sampleRate length : Z) : list Z :=
  codes "RIFF" ++ le_bytes 4 (36 + length * numChannels * 2)%Z
  ++ codes "WAVE" ++ codes "fmt " ++ le_bytes 4 16%Z ++ le_bytes 2 1%Z
  ++ le_bytes 2 numChannels ++ le_bytes 4 sampleRate
  ++ le_bytes 4 (sampleRate * numChannels * 2)%Z
  ++ le_bytes 2 (numChannels * 2)%Z ++ le_bytes 2 16%Z
  ++ codes "data" ++ le_bytes 4 (length * numChannels * 2)%Z.

(** The 16-bit integer stored for sample [i] of [channel]. *)
Definition int16_of (audioBuffer : AudioBuffer.t) (i channel : nat) : Z :=
  match pcm audioBuffer channel i with
  | Some x => ToInt16 x
  | None => 0%Z
  end.

(** The data chunk: frame after frame, the channels interleaved, two bytes a
    sample. *)
Definition frame_bytes (audioBuffer : AudioBuffer.t) (i : nat) : list Z :=
  flat_map (fun channel => le_bytes 2 (int16_of audioBuffer i channel))
           (seq 0 (AudioBuffer.numberOfChannels audioBuffer)).

Definition wav_data (audioBuffer : AudioBuffer.t) : list Z :=
  flat_map (frame_bytes audioBuffer) (seq 0 (AudioBuffer.length audioBuffer)).

End Wav.

(** ** A session used in the examples *)

Module Session.

Import Engine.

(** One second of mono audio at four samples a second, and a clip of half
    a second. *)
Definition mix : AudioBuffer.t :=
  AudioBuffer.mk 4 4 [[0; 1 # 2; -1; 1 # 4]%Q].

Definition clip : AudioBuffer.t := AudioBuffer.mk 4 2 [[1 # 2; -1 # 2]%Q].

(** The bytes the server holds for the full mix and for the clip. *)
Definition mix_bytes : list Z := [1; 2; 3]%Z.

Definition clip_bytes : list Z := [4; 5]%Z.

Definition decoder (bytes : list Z) : option AudioBuffer.t :=
  match bytes with
  | [1; 2; 3]%Z => Some mix
  | [4; 5]%Z => Some clip
  | _ => None
  end.

(** A server that answers every request, by the path of the URL. *)
Definition online : Env :=
  mkEnv (fun url =>
           if String.prefix "/api/download/s1.wav" url
           then Response 200 clip_bytes
           else Response 200 mix_bytes)
        decoder.

(** No network. *)
Definition offline : Env := mkEnv (fun _ => NetworkError) decoder.

(** A server that answers 404. *)
Definition missing : Env := mkEnv (fun _ => Response 404 []) decoder.

(** A server whose bytes are not audio. *)
Definition garbled : Env := mkEnv (fun _ => Response 200 [9]%Z) decoder.

Definition s1 : Sentence.SentenceSegment :=
  Sentence.mkSentence 1 0 2 "namaste" "hello" (Some "/api/download/s1.wav")
                      (Some "/api/download/mix.wav") true None None None None.

Definition s2 : Sentence.SentenceSegment :=
  Sentence.mkSentence 2 2 3 "dhanyavad" "thanks" None None false None None
                      None None.

Definition props : Props := mkProps [s1; s2] None.

(** The component with the full mix loaded and nothing playing. *)
Definition loaded : Editor :=
  loadAudioBuffer online mix_bytes (mount (Some (mkContext 0 false 0 []))).

End Session.

(** ** The sentence timeline *)

Module Timeline.

Import Sentence.

(** [Math.round]: the nearest integer, halves upwards. *)
Definition round (x : Q) : Z := Qfloor (x + (1 # 2)).

(** [array.splice(index, 1)]: the element removed, if there is one, and the
    array that is left. *)
Definition splice_out {A : Type} (index : nat) (l : list A)
  : option A * list A :=
  (l !! index, take index l ++ drop (S index) l).

(** [array.splice(index, 0, x)] *)
Definition splice_in {A : Type} (index : nat) (x : A) (l : list A) : list A :=
  take index l ++ x :: drop index l.

(** The index the drag of the block at [index] ends on, [pointX] being
    [info.point.x]:
    [Math.max(0, Math.min(sentences.length - 1, newIndex))]. *)
Definition clampedIndex (sentences : list SentenceSegment) (index : nat)
    (pointX : Q) : Z :=
  let newIndex := round ((pointX + inject_Z (Z.of_nat index) * 200) / 200) in
  Z.max 0 (Z.min (Z.of_nat (List.length sentences) - 1) newIndex).

(** [onDragEnd] of the block at [index]: the list handed to
    [onSentenceReorder], [None] when the callback is not called.  The handler
    exists for the indices of the list. *)
Definition onDragEnd (sentences : list SentenceSegment) (index : nat)
    (pointX : Q) : option (list SentenceSegment) :=
  let target := clampedIndex sentences index pointX in
  if Z.eqb target (Z.of_nat index) then None
  else
    match splice_out index sentences with
    | (Some movedSentence, newOrder) =>
        Some (splice_in (Z.to_nat target) movedSentence newOrder)
    | (None, _) => None
    end.

(** [handleSentenceDrag] and [handleSentenceResize], with
    [onSentenceUpdate] bound to [updateSentence]. *)
Definition handleSentenceDrag (sentenceId : Z) (newStartTime : Q)
    (sentences : list SentenceSegment) : list SentenceSegment :=
  updateSentence sentenceId
    (mkUpdates None (Some newStartTime) None None None None None None None
               None None None)
    sentences.

Definition handleSentenceResize (sentenceId : Z) (newDuration : Q)
    (sentences : list SentenceSegment) : list SentenceSegment :=
  updateSentence sentenceId
    (mkUpdates None None (Some newDuration) None None None None None None
               None None None)
    sentences.

(** [getSentencePosition] and [getSentenceWidth], in percent of the
    timeline of length [duration]. *)
Definition getSentencePosition (duration : Q) (sentence : SentenceSegment)
  : Q :=
  if Qeq_bool duration 0 then 0
  else (startTime sentence / duration) * 100.

Definition getSentenceWidth (duration : Q) (sentence : SentenceSegment) : Q :=
  if Qeq_bool duration 0 then 10
  else Qmax ((Sentence.duration sentence / duration) * 100) 5.

End Timeline.

(** ** The handlers of the editor as steps *)

Module Run.

Import Engine.
Local Open Scope Q_scope.

Definition setVolume (v : Q) : Editor -> Editor :=
  with_state (fun s => mkState (isPlaying s) (currentTime s) (duration s) v
                               (isMuted s) (currentAudioType s)).

Definition setIsMuted (b : bool) : Editor -> Editor :=
  with_state (fun s => mkState (isPlaying s) (currentTime s) (duration s)
                               (volume s) b (currentAudioType s)).

(** [handleVolumeChange], [newVolume] being what [parseFloat] gives for the
    slider. *)
Definition handleVolumeChange (newVolume : Q) (e : Editor) : Editor :=
  setIsMuted (Qeq_bool newVolume 0) (setVolume newVolume e).

(** [toggleMute] of the render [r]. *)
Definition toggleMute (r : State) (e : Editor) : Editor :=
  setIsMuted (negb (isMuted r)) e.

(** The click on the play button of the render [r]:
    [isPlaying ? pauseAudio : playAudio]. *)
Definition playPauseButton (r : State) (e : Editor) : Editor :=
  if isPlaying r then pauseAudio e else playAudio r e.

(** The click on the marker of [sentence] on the progress bar, in the
    render [r]. *)
Definition markerClick (r : State) (sentence : Sentence.SentenceSegment)
    (e : Editor) : Editor :=
  let e1 := setCurrentTime (Sentence.startTime sentence) e in
  if isPlaying r
  then setTimeout (mkTimer 100 r) (pauseAudio e1)
  else e1.

(** The source [n] has played its buffer to the end: it leaves the registry
    and its [onended] handler runs. *)
Definition sourceEnded (n : nat) (e : Editor) : Editor :=
  match List.find (fun src => Nat.eqb (src_id src) n) (playing e) with
  | Some src =>
      onended (src_onended src)
              (set_audioContextRef (stop n <$> audioContextRef e) e)
  | None => e
  end.

(** What can happen to the component: the handlers of the current render,
    the pending callbacks, the clock and the end of a source. *)
Inductive Action :=
| ClickPlayPause
| Seek (ev : MouseEvent)
| ClickMarker (sentence : Sentence.SentenceSegment)
| ChangeVolume (newVolume : Q)
| ToggleMute
| Frame
| TimerFires
| SourceEnds (n : nat)
| Elapse (dt : Q)
| LoadFile (env : Env) (audioFile : list Z)
| SentencesChange (props : Props) (env : Env) (now : Z)
| LoadModified (props : Props) (env : Env) (now : Z)
| PlayModified (sentence : Sentence.SentenceSegment) (env : Env) (now : Z)
| LoadComplete (props : Props) (env : Env) (now : Z)
| ForceLoadComplete (props : Props) (env : Env) (now : Z)
| LoadExported (exportedFilename : string) (env : Env) (now : Z).

Definition step (a : Action) (e : Editor) : Editor :=
  let r := state e in
  match a with
  | ClickPlayPause => playPauseButton r e
  | Seek ev => handleSeek r ev e
  | ClickMarker sentence => markerClick r sentence e
  | ChangeVolume newVolume => handleVolumeChange newVolume e
  | ToggleMute => toggleMute r e
  | Frame => fire_frame e
  | TimerFires => fire_timer e
  | SourceEnds n => sourceEnded n e
  | Elapse dt => elapse dt e
  | LoadFile env audioFile => loadAudioBuffer env audioFile e
  | SentencesChange props env now => sentencesEffect r props env now e
  | LoadModified props env now => loadModifiedFullAudio r props env now e
  | PlayModified sentence env now =>
      playModifiedFullAudio r sentence env now e
  | LoadComplete props env now => (loadCompleteAudio r props env now e).1
  | ForceLoadComplete props env now =>
      (forceLoadCompleteAudio r props env now e).1
  | LoadExported exportedFilename env now =>
      (loadExportedAudio r exportedFilename env now e).1
  end.

(** The component after the actions [actions], first to last. *)
Definition run (actions : list Action) (e : Editor) : Editor :=
  fold_left (fun e a => step a e) actions e.

(** The loaded buffer and the [duration] state agree. *)
Definition consistent (e : Editor) : Prop :=
  match audioBufferRef e with
  | Some audioBuffer => duration (state e) = AudioBuffer.duration audioBuffer
  | None => duration (state e) = 0
  end.

(** The positions the component holds and hands on are not negative: the
    position and the duration of the state, the position of the render of
    each pending timer, and the offset each playing source was started at. *)
Definition well_timed (e : Editor) : Prop :=
  0 <= currentTime (state e) /\
  0 <= duration (state e) /\
  Forall (fun t => 0 <= currentTime (timer_render t)) (timers e) /\
  Forall (fun source => 0 <= src_offset source) (playing e).

(** The decoder yields buffers of a duration that is not negative. *)
Definition decodes_durations (env : Env) : Prop :=
  forall bytes audioBuffer,
    decodeAudioData env bytes = Some audioBuffer ->
    0 <= AudioBuffer.duration audioBuffer.

(** What the invariant asks of the inputs: a progress bar of a width, a
    sentence that does not start before 0, buffers of a duration. *)
Definition admissible (a : Action) : Prop :=
  match a with
  | Seek ev => 0 < rect_width ev
  | ClickMarker sentence => 0 <= Sentence.startTime sentence
  | LoadFile env _ => decodes_durations env
  | SentencesChange _ env _ => decodes_durations env
  | LoadModified _ env _ => decodes_durations env
  | PlayModified _ env _ => decodes_durations env
  | LoadComplete _ env _ => decodes_durations env
  | ForceLoadComplete _ env _ => decodes_durations env
  | LoadExported _ env _ => decodes_durations env
  | _ => True
  end.

End Run.

(** ** The event loop

    What the platform does on behalf of the component between two of its
    handlers.  A source that is stopped gets an [ended] event as one that
    has run out does, and the handler it carries runs when the event is
    dispatched, after the handler that stopped it has returned.  An [async]
    function runs up to its first [await] in the task that called it and
    goes on in a later task; other tasks may run in between. *)

Module Loop.

Import Engine.
Local Open Scope Q_scope.

(** The sources a task stopped: those the registry held before the task
    and does not hold after it (ids are not used twice). *)
Definition stopped (before after : Editor) : list Source :=
  List.filter
    (fun src =>
       negb (existsb (fun src' => Nat.eqb (src_id src') (src_id src))
                     (playing after)))
    (playing before).

(** The component and the [ended] events that are still to be dispatched,
    oldest first, each with the source it is for. *)
Record Page := mkPage {
  editor : Editor;
  ended : list Source
}.

(** A handler or a callback of the component runs as one task. *)
Definition task (f : Editor -> Editor) (p : Page) : Page :=
  let e' := f (editor p) in
  mkPage e' (ended p ++ stopped (editor p) e').

(** The oldest pending [ended] event is dispatched. *)
Definition dispatchEnded (p : Page) : Page :=
  match ended p with
  | src :: rest => mkPage (onended (src_onended src) (editor p)) rest
  | [] => p
  end.

(** [n] dispatches in a row. *)
Definition ended_events (n : nat) (p : Page) : Page :=
  Nat.iter n dispatchEnded p.

(** [loadAudioFromUrl] of the render [r] up to [await fetch(audioUrl)]. *)
Definition loadAudioFromUrl_begin (r : State) (audioUrl : string)
    (e : Editor) : Editor :=
  let e1 := if isPlaying r then pauseAudio e else e in
  let e2 := stopSourceNode e1 in
  request audioUrl e2.

(** [loadAudioFromUrl] from the answer of the fetch on: the function
    touches the component again only after [decodeAudioData] has resolved,
    in the assignments that follow it. *)
Definition loadAudioFromUrl_resume (env : Env) (audioUrl : string)
    (audioType : AudioType) (e : Editor) : Editor :=
  match fetch env audioUrl with
  | NetworkError => e
  | Response status body =>
      if ok status then
        match audioContextRef e with
        | Some _ =>
            match decodeAudioData env body with
            | Some audioBuffer => install audioBuffer audioType e
            | None => e
            end
        | None => e
        end
      else e
  end.

(** The tasks an [async] function of the render [r] runs in, first to
    last.  [loadAudioBuffer] touches the component only after its awaits,
    [forceLoadCompleteAudio] and [loadExportedAudio] wait 100 ms after they
    have cleared the buffer. *)
Definition loadAudioFromUrl_tasks (r : State) (env : Env)
    (audioUrl : string) (audioType : AudioType) : list (Editor -> Editor) :=
  [loadAudioFromUrl_begin r audioUrl;
   loadAudioFromUrl_resume env audioUrl audioType].

Definition loadCompleteAudio_tasks (r : State) (props : Props) (env : Env)
    (now : Z) : list (Editor -> Editor) :=
  match List.find hasModifiedAudioUrl (sentences props) with
  | Some s =>
      loadAudioFromUrl_tasks r env
        (cacheBustedUrl (url_text (Sentence.modifiedAudioUrl s)) now)
        complete
  | None =>
      match processedAudio props with
      | Some audioFile => [loadAudioBuffer env audioFile]
      | None => []
      end
  end.

Definition forceLoadCompleteAudio_tasks (r : State) (props : Props)
    (env : Env) (now : Z) : list (Editor -> Editor) :=
  clearBuffer r :: loadCompleteAudio_tasks r props env now.

Definition loadExportedAudio_tasks (r : State) (exportedFilename : string)
    (env : Env) (now : Z) : list (Editor -> Editor) :=
  clearBuffer r
    :: loadAudioFromUrl_tasks r env
         (cacheBustedUrl ("/api/download/" +:+ exportedFilename) now)
         exported.

(** The tasks run in their order, each followed by as many dispatches of
    [ended] events as [gaps] gives for it (none where [gaps] has run
    out). *)
Fixpoint interleave (tasks : list (Editor -> Editor)) (gaps : list nat)
    (p : Page) : Page :=
  match tasks with
  | [] => p
  | f :: rest =>
      interleave rest (tl gaps) (ended_events (hd O gaps) (task f p))
  end.

(** What happens on the page: a handler of the current render or a
    callback ([Run.step]), or the dispatch of an [ended] event.  A source
    that runs out has its event dispatched in the same step. *)
Inductive Event :=
| Act (a : Run.Action)
| Ended.

Definition step (ev : Event) (p : Page) : Page :=
  match ev with
  | Act (Run.SourceEnds n) =>
      mkPage (Run.step (Run.SourceEnds n) (editor p)) (ended p)
  | Act a => task (Run.step a) p
  | Ended => dispatchEnded p
  end.

Definition run (events : list Event) (p : Page) : Page :=
  fold_left (fun p ev => step ev p) events p.

End Loop.

(** ** Reading a WAV file back *)

Module WavRead.

(** The number [bytes] hold, least significant byte first. *)
Fixpoint from_le (bytes : list Z) : Z :=
  match bytes with
  | [] => 0
  | b :: rest => (b + 256 * from_le rest)%Z
  end.

(** [getUint16(byteOffset, true)] and [getUint32(byteOffset, true)]; [None]
    is the [RangeError] of a read past the end. *)
Definition getUint (n : nat) (view : list Z) (byteOffset : nat) : option Z :=
  let bytes := take n (drop byteOffset view) in
  if decide (List.length bytes = n) then Some (from_le bytes) else None.

Definition getUint16 := getUint 2.

Definition getUint32 := getUint 4.

(** The sample a 16-bit integer stands for, on the scale it was written
    with. *)
Definition unscale (v : Z) : Q :=
  if (v <? 0)%Z then inject_Z v / 32768 else inject_Z v / 32767.

End WavRead.

(** ** Time labels

    [formatTime] of the audio editor (AudioEditor.js), [formatTime] and
    [generateTimeMarkers] of the sentence timeline and [formatDuration] of
    videoUtils.js.  A number is a rational; [x % m] is the remainder of
    the division cut towards zero, with the sign of [x]. *)

Module Format.

Local Open Scope Q_scope.

Definition js_rem (x m : Q) : Q := x - m * inject_Z (Wav.Qtruncate (x / m)).

(** [s.padStart(2, '0')] *)
Definition padStart2 (s : string) : string :=
  match String.length s with
  | O => "00"
  | S O => "0" +:+ s
  | _ => s
  end%string.

(** AudioEditor.js: minutes as they are, seconds on two digits. *)
Definition formatTime (seconds : Q) : string :=
  if Qeq_bool seconds 0 then "0:00"%string
  else
    let mins := Qfloor (seconds / 60) in
    let secs := Qfloor (js_rem seconds 60) in
    (decimal mins +:+ ":" +:+ padStart2 (decimal secs))%string.

(** The sentence timeline: minutes on two digits as well. *)
Definition timelineFormatTime (seconds : Q) : string :=
  if Qeq_bool seconds 0 then "00:00"%string
  else
    let mins := Qfloor (seconds / 60) in
    let secs := Qfloor (js_rem seconds 60) in
    (padStart2 (decimal mins) +:+ ":" +:+ padStart2 (decimal secs))%string.

(** videoUtils.js: hours only when there are some. *)
Definition formatDuration (seconds : Q) : string :=
  if Qeq_bool seconds 0 then "0:00"%string
  else
    let hours := Qfloor (seconds / 3600) in
    let minutes := Qfloor (js_rem seconds 3600 / 60) in
    let secs := Qfloor (js_rem seconds 60) in
    if (0 <? hours)%Z
    then (decimal hours +:+ ":" +:+ padStart2 (decimal minutes) +:+ ":"
            +:+ padStart2 (decimal secs))%string
    else (decimal minutes +:+ ":" +:+ padStart2 (decimal secs))%string.

(** The loop [for (let i = 0; i <= duration; i += interval) markers.push(i)];
    [fuel] bounds the number of tests of the condition. *)
Fixpoint markers_from (fuel : nat) (i interval : Z) (duration : Q)
  : option (list Z) :=
  match fuel with
  | O => None
  | S fuel' =>
      if Qle_bool (inject_Z i) duration
      then cons i <$> markers_from fuel' (i + interval)%Z interval duration
      else Some []
  end.

Definition interval (duration zoom : Q) : Z :=
  Z.max 1 (Qfloor (duration / (zoom / 10))).

Definition generateTimeMarkers (fuel : nat) (duration zoom : Q)
  : option (list Z) :=
  if Qeq_bool duration 0 then Some []
  else markers_from fuel 0 (interval duration zoom) duration.

End Format.

(** ** The name of the dubbed file

    [processDubbing] of useDubbingTool.js downloads the result from
    [`${API_BASE_URL}/api/download/${filename}`], the file name being
    [output_audio_path.split('/').pop() || output_audio_path.split('\\').pop()]. *)

Module Download.

Definition backslash : ascii := ascii_of_nat 92.

(** [s.split(sep)] for a separator of one character: the pieces between
    the separators, at least one. *)
Fixpoint split (sep : ascii) (s : string) : list string :=
  match s with
  | EmptyString => [EmptyString]
  | String c s' =>
      if Ascii.eqb c sep then EmptyString :: split sep s'
      else
        match split sep s' with
        | piece :: pieces => String c piece :: pieces
        | [] => [String c EmptyString]
        end
  end.

(** [pieces.pop()], as far as its value goes. *)
Definition pop (pieces : list string) : option string := last pieces.

Definition filename (output_audio_path : string) : option string :=
  js_or (pop (split "/" output_audio_path))
        (pop (split backslash output_audio_path)).

(** Whether the character occurs in the string. *)
Fixpoint occurs (c : ascii) (s : string) : bool :=
  match s with
  | EmptyString => false
  | String c' s' => Ascii.eqb c' c || occurs c s'
  end.

End Download.

(** * Properties *)

(** ** The sentence model *)

Section SentenceModel.

Import Sentence.
Local Open Scope Q_scope.

Lemma spread_merged sentence updates :
  merged sentence updates (spread sentence updates).
Proof.
  unfold merged, merged_field, spread; simpl.
  repeat split; match goal with |- context [default _ ?u] => destruct u end;
    reflexivity.
Qed.

Lemma updateSentence_lookup sentenceId updates
    (prevSentences : list SentenceSegment) (i : nat) :
  updateSentence sentenceId updates prevSentences !! i =
  (fun sentence => if Z.eqb (id sentence) sentenceId
                   then spread sentence updates else sentence)
    <$> prevSentences !! i.
Proof. unfold updateSentence. apply list_lookup_fmap. Qed.

Lemma updateSentence_absent sentenceId updates
    (prevSentences : list SentenceSegment) :
  (forall sentence, In sentence prevSentences -> id sentence <> sentenceId) ->
  updateSentence sentenceId updates prevSentences = prevSentences.
Proof.
  induction prevSentences as [|s l IH]; intros Hno; [reflexivity|].
  simpl. rewrite IH by (intros; apply Hno; now right).
  destruct (Z.eqb_spec (id s) sentenceId) as [Heq|_]; [|reflexivity].
  exfalso. apply (Hno s); [now left|exact Heq].
Qed.

(** C7. [updateSentence] merges the given fields into every segment whose
    id is the given one, leaving the other fields of that segment as they
    were; every other segment, the number of segments and their order are
    unchanged; when no segment has the id the list is returned as it was. *)
Theorem updateSentence_frame (sentenceId : Z) (updates : Updates)
    (prevSentences : list SentenceSegment) :
  List.length (updateSentence sentenceId updates prevSentences)
    = List.length prevSentences /\
  (forall i sentence,
      prevSentences !! i = Some sentence -> id sentence = sentenceId ->
      exists sentence',
        updateSentence sentenceId updates prevSentences !! i = Some sentence'
        /\ merged sentence updates sentence') /\
  (forall i sentence,
      prevSentences !! i = Some sentence -> id sentence <> sentenceId ->
      updateSentence sentenceId updates prevSentences !! i = Some sentence) /\
  ((forall sentence, In sentence prevSentences -> id sentence <> sentenceId) ->
   updateSentence sentenceId updates prevSentences = prevSentences).
Proof.
  split; [apply List.length_map|].
  split; [|split].
  - intros i s Hi Hid. exists (spread s updates).
    rewrite updateSentence_lookup, Hi. simpl.
    rewrite (proj2 (Z.eqb_eq _ _) Hid).
    split; [reflexivity|apply spread_merged].
  - intros i s Hi Hid.
    rewrite updateSentence_lookup, Hi. simpl.
    now rewrite (proj2 (Z.eqb_neq _ _) Hid).
  - apply updateSentence_absent.
Qed.

(** The update of the specification: a new translated text for segment 1. *)
Example updateSentence_translatedText :
  let s1 := mkSentence 1 0 2 "namaste" "hello" (Some "/api/download/s1.wav")
                       None false None None None None in
  let s2 := mkSentence 2 2 3 "dhanyavad" "thanks" None None false None None
                       None None in
  let updates := mkUpdates None None None None (Some "X") None None None None
                           None None None in
  updateSentence 1 updates [s1; s2]
  = [mkSentence 1 0 2 "namaste" "X" (Some "/api/download/s1.wav") None false
                None None None None; s2] /\
  updateSentence 3 updates [s1; s2] = [s1; s2] /\
  updateSentence 1 no_updates [s1; s2] = [s1; s2].
Proof. repeat split. Qed.

Lemma at_time_in_interval time sentence :
  at_time time sentence = true <-> in_interval time sentence.
Proof.
  unfold at_time, in_interval.
  rewrite andb_true_iff, !Qle_bool_iff. reflexivity.
Qed.

Lemma at_time_false time sentence :
  at_time time sentence = false <-> ~ in_interval time sentence.
Proof.
  rewrite <- at_time_in_interval.
  destruct (at_time time sentence); split; intros H; congruence.
Qed.

Lemma getSentenceAtTime_Some (sentences : list SentenceSegment) time sentence :
  getSentenceAtTime sentences time = Some sentence <->
  exists i,
    sentences !! i = Some sentence /\ in_interval time sentence /\
    forall j earlier,
      (j < i)%nat -> sentences !! j = Some earlier ->
      ~ in_interval time earlier.
Proof.
  unfold getSentenceAtTime.
  induction sentences as [|s l IH]; simpl.
  - split; [discriminate|]. intros (i & Hi & _). destruct i; discriminate.
  - destruct (at_time time s) eqn:Hs.
    + split.
      * intros [= <-]. exists 0%nat. split; [reflexivity|].
        split; [now apply at_time_in_interval|]. intros j ? Hj. lia.
      * intros (i & Hi & Hin & Hfirst). destruct i as [|i].
        -- simpl in Hi. exact Hi.
        -- exfalso. apply (Hfirst 0%nat s); [lia|reflexivity|].
           now apply at_time_in_interval.
    + rewrite IH. split.
      * intros (i & Hi & Hin & Hfirst). exists (S i).
        split; [exact Hi|]. split; [exact Hin|].
        intros [|j] earlier Hj Hlook.
        -- simpl in Hlook. injection Hlook as <-. now apply at_time_false.
        -- apply (Hfirst j); [lia|exact Hlook].
      * intros (i & Hi & Hin & Hfirst). destruct i as [|i].
        -- simpl in Hi. injection Hi as <-.
           apply at_time_in_interval in Hin. congruence.
        -- exists i. split; [exact Hi|]. split; [exact Hin|].
           intros j earlier Hj Hlook. apply (Hfirst (S j)); [lia|exact Hlook].
Qed.

Lemma getSentenceAtTime_None (sentences : list SentenceSegment) time :
  getSentenceAtTime sentences time = None <->
  forall sentence, In sentence sentences -> ~ in_interval time sentence.
Proof.
  unfold getSentenceAtTime.
  induction sentences as [|s l IH]; simpl.
  - split; [intros _ ? []|reflexivity].
  - destruct (at_time time s) eqn:Hs.
    + split; [discriminate|]. intros Hno. exfalso.
      apply (Hno s); [now left|now apply at_time_in_interval].
    + rewrite IH. split.
      * intros Hno x [<-|Hx]; [now apply at_time_false|now apply Hno].
      * intros Hno x Hx. apply Hno. now right.
Qed.

(** C9. [getSentenceAtTime] matches a segment exactly when the time lies in
    its interval closed at both ends; it returns the first segment of the
    list whose interval holds the time, and no segment exactly when no
    interval holds it. *)
Theorem getSentenceAtTime_first_match (sentences : list SentenceSegment)
    (time : Q) :
  (forall sentence,
      at_time time sentence = true <->
      startTime sentence <= time <= startTime sentence + duration sentence) /\
  (forall sentence,
      getSentenceAtTime sentences time = Some sentence <->
      exists i,
        sentences !! i = Some sentence /\ in_interval time sentence /\
        forall j earlier,
          (j < i)%nat -> sentences !! j = Some earlier ->
          ~ in_interval time earlier) /\
  (getSentenceAtTime sentences time = None <->
   forall sentence, In sentence sentences -> ~ in_interval time sentence).
Proof.
  split; [intros s; apply at_time_in_interval|].
  split; [intros s; apply getSentenceAtTime_Some|].
  apply getSentenceAtTime_None.
Qed.

(** The boundary two adjacent segments share belongs to both intervals; the
    earlier segment is returned. *)
Example getSentenceAtTime_shared_boundary :
  let s1 := mkSentence 1 0 2 "" "" None None false None None None None in
  let s2 := mkSentence 2 2 3 "" "" None None false None None None None in
  in_interval 2 s1 /\ in_interval 2 s2 /\
  getSentenceAtTime [s1; s2] 2 = Some s1 /\
  getSentenceAtTime [s1; s2] 0 = Some s1 /\
  getSentenceAtTime [s1; s2] 5 = Some s2 /\
  getSentenceAtTime [s1; s2] (51 # 10) = None.
Proof. unfold in_interval; simpl; unfold Qle; simpl. repeat split; lia. Qed.

(** C8. With a first segment of id 1 over [0, 2] and a second of id 2
    over [2, 5], [getSentenceAtTime] at 2.5 returns the second segment. *)
Theorem getSentenceAtTime_scenario (s1 s2 : SentenceSegment) :
  id s1 = 1%Z -> startTime s1 = 0 -> duration s1 = 2 ->
  id s2 = 2%Z -> startTime s2 = 2 -> duration s2 = 3 ->
  getSentenceAtTime [s1; s2] 2.5 = Some s2 /\
  id <$> getSentenceAtTime [s1; s2] 2.5 = Some 2%Z.
Proof.
  intros _ Hs1 Hd1 Hid2 Hs2 Hd2.
  unfold getSentenceAtTime, at_time. simpl.
  rewrite Hs1, Hd1, Hs2, Hd2. simpl. rewrite Hid2. split; reflexivity.
Qed.

(** The two segments of the scenario, with no text and no audio. *)
Lemma getSentenceAtTime_scenario_witness :
  let s1 := mkSentence 1 0 2 "" "" None None false None None None None in
  let s2 := mkSentence 2 2 3 "" "" None None false None None None None in
  getSentenceAtTime [s1; s2] 2.5 = Some s2 /\
  id <$> getSentenceAtTime [s1; s2] 2.5 = Some 2%Z.
Proof.
  intros s1 s2.
  apply (getSentenceAtTime_scenario s1 s2); reflexivity.
Defined.

Lemma updateSentence_text_lookup target refinedText
    (sentences : list SentenceSegment) i sentence :
  sentences !! i = Some sentence -> id sentence = target ->
  updateSentence target (text_update refinedText) sentences !! i =
  Some (spread sentence (text_update refinedText)).
Proof.
  intros Hi Hid. rewrite updateSentence_lookup, Hi. simpl.
  now rewrite (proj2 (Z.eqb_eq _ _) Hid).
Qed.

(** C4. When the reprocessing request fails (the fetch is rejected, the
    response is not ok, or its body cannot be read), the target segment keeps
    the refined text and the refined flag, and its [audioUrl] and
    [modifiedAudioUrl] are the ones it had before the request. *)
Theorem handleDialogueRefine_audio_failure (target : SentenceSegment)
    (refinedText : string) (outcome : ReprocessOutcome) (isoNow : string)
    (sentences : list SentenceSegment) (i : nat) (sentence : SentenceSegment) :
  failed outcome ->
  sentences !! i = Some sentence ->
  id sentence = id target ->
  exists sentence',
    handleDialogueRefine (Some target) refinedText outcome isoNow sentences
      !! i = Some sentence' /\
    translatedText sentence' = refinedText /\
    isRefined sentence' = true /\
    audioUrl sentence' = audioUrl sentence /\
    modifiedAudioUrl sentence' = modifiedAudioUrl sentence.
Proof.
  intros Hfail Hi Hid.
  pose proof (updateSentence_text_lookup (id target) refinedText
                sentences i sentence Hi Hid) as H1.
  destruct outcome as [| | |result]; simpl in Hfail; [| | |contradiction];
    simpl.
  - exists (spread (spread sentence (text_update refinedText))
                   (text_update refinedText)).
    split; [|repeat split].
    apply updateSentence_text_lookup; [exact H1|exact Hid].
  - exists (spread sentence (text_update refinedText)).
    split; [exact H1|repeat split].
  - exists (spread (spread sentence (text_update refinedText))
                   (text_update refinedText)).
    split; [|repeat split].
    apply updateSentence_text_lookup; [exact H1|exact Hid].
Qed.

(** A refinement of the first of two segments whose reprocessing request is
    answered with an error status. *)
Lemma handleDialogueRefine_audio_failure_witness :
  let s1 := mkSentence 1 0 2 "namaste" "hello" (Some "/api/download/s1.wav")
                       (Some "/api/download/mix.wav") false None None None
                       None in
  let s2 := mkSentence 2 2 3 "dhanyavad" "thanks" None None false None None
                       None None in
  exists sentence',
    handleDialogueRefine (Some s1) "hello there" NotOk "" [s1; s2] !! 0%nat
      = Some sentence' /\
    translatedText sentence' = "hello there" /\
    isRefined sentence' = true /\
    audioUrl sentence' = Some "/api/download/s1.wav" /\
    modifiedAudioUrl sentence' = Some "/api/download/mix.wav".
Proof.
  intros s1 s2.
  apply (handleDialogueRefine_audio_failure s1 "hello there" NotOk ""
           [s1; s2] 0 s1); [exact I|reflexivity|reflexivity].
Defined.

(** On success the URLs of the response are attached to the target. *)
Example handleDialogueRefine_success :
  let s1 := mkSentence 1 0 2 "namaste" "hello" None None false None None None
                       None in
  let result := mkResult (Some "out/s1.wav") None (Some "/api/download/s1.wav")
                         None (Some "out/mix.wav")
                         (Some "/api/download/mix.wav") in
  handleDialogueRefine (Some s1) "hello there" (Reprocessed result)
                       "2025-01-01T00:00:00.000Z" [s1]
  = [mkSentence 1 0 2 "namaste" "hello there" (Some "/api/download/s1.wav")
                (Some "/api/download/mix.wav") true (Some "out/s1.wav")
                (Some "out/mix.wav") (Some "2025-01-01T00:00:00.000Z") None].
Proof. reflexivity. Qed.

End SentenceModel.

(** ** The playback engine *)

Section EngineModel.

Import Engine.
Local Open Scope Q_scope.

(** What the steps of the engine leave alone. *)

Lemma stopSourceNode_state e : state (stopSourceNode e) = state e.
Proof. unfold stopSourceNode. now destruct (sourceNodeRef e). Qed.

Lemma stopSourceNode_ref e : sourceNodeRef (stopSourceNode e) = None.
Proof.
  unfold stopSourceNode. destruct (sourceNodeRef e) eqn:H; [reflexivity|exact H].
Qed.

Lemma stopSourceNode_buffer e :
  audioBufferRef (stopSourceNode e) = audioBufferRef e.
Proof. unfold stopSourceNode. now destruct (sourceNodeRef e). Qed.

Lemma stopSourceNode_requests e : requests (stopSourceNode e) = requests e.
Proof. unfold stopSourceNode. now destruct (sourceNodeRef e). Qed.

Lemma stopSourceNode_playing e src :
  In src (playing (stopSourceNode e)) ->
  In src (playing e) /\ sourceNodeRef e <> Some (src_id src).
Proof.
  unfold stopSourceNode, playing.
  destruct (sourceNodeRef e) as [n|] eqn:Hn; simpl.
  - destruct (audioContextRef e) as [c|]; simpl; [|intros []].
    rewrite filter_In, negb_true_iff, Nat.eqb_neq.
    intros [Hin Hne]. split; [exact Hin|]. intros [= ->]. now apply Hne.
  - intros H. split; [exact H|discriminate].
Qed.

Lemma stopSourceNode_silent e :
  tracked e -> playing (stopSourceNode e) = [].
Proof.
  intros [_ Href].
  destruct (playing (stopSourceNode e)) as [|src l] eqn:Hp; [reflexivity|].
  destruct (stopSourceNode_playing e src) as [Hin Hne].
  - rewrite Hp. now left.
  - exfalso. apply Hne, Href, Hin.
Qed.

Lemma pauseAudio_playing e : playing (pauseAudio e) = playing (stopSourceNode e).
Proof.
  unfold pauseAudio. now destruct (animationFrameRef (stopSourceNode e)).
Qed.

Lemma pauseAudio_ref e : sourceNodeRef (pauseAudio e) = None.
Proof.
  unfold pauseAudio.
  destruct (animationFrameRef (stopSourceNode e)); simpl;
    apply stopSourceNode_ref.
Qed.

Lemma pauseAudio_buffer e : audioBufferRef (pauseAudio e) = audioBufferRef e.
Proof.
  unfold pauseAudio.
  destruct (animationFrameRef (stopSourceNode e)); simpl;
    apply stopSourceNode_buffer.
Qed.

Lemma pauseAudio_requests e : requests (pauseAudio e) = requests e.
Proof.
  unfold pauseAudio.
  destruct (animationFrameRef (stopSourceNode e)); simpl;
    apply stopSourceNode_requests.
Qed.

Lemma pauseAudio_state e :
  state (pauseAudio e) =
  mkState false (currentTime (state e)) (duration (state e))
          (volume (state e)) (isMuted (state e)) (currentAudioType (state e)).
Proof.
  unfold pauseAudio.
  destruct (animationFrameRef (stopSourceNode e)); simpl;
    now rewrite stopSourceNode_state.
Qed.

(** What [pauseAudio] has done when it returns: the source [sourceNodeRef]
    pointed to is stopped, the ref is cleared, playback is marked as stopped
    and the position is as it was; after a frame has recomputed the position
    from the context's clock and the start clock, that is the position the
    handler leaves.  The [ended] event of the stopped source is dispatched
    after the handler has returned. *)
Lemma pauseAudio_returns (e : Editor) :
  currentTime (state (pauseAudio e)) = currentTime (state e) /\
  isPlaying (state (pauseAudio e)) = false /\
  sourceNodeRef (pauseAudio e) = None /\
  (forall src, In src (playing (pauseAudio e)) ->
               In src (playing e) /\ sourceNodeRef e <> Some (src_id src)) /\
  (forall r c,
      isPlaying r = true -> audioContextRef e = Some c ->
      ctx_currentTime c - startTimeRef e < duration r ->
      currentTime (state (pauseAudio (updatePlaybackTime r e)))
      = Qmax 0 (ctx_currentTime c - startTimeRef e)).
Proof.
  rewrite !pauseAudio_state, pauseAudio_ref.
  split; [reflexivity|]. split; [reflexivity|]. split; [reflexivity|].
  split.
  - intros src Hsrc. apply stopSourceNode_playing.
    now rewrite <- pauseAudio_playing.
  - intros r c Hr Hc Hlt. rewrite pauseAudio_state. simpl.
    unfold updatePlaybackTime. rewrite Hr, Hc.
    destruct (Qle_bool (duration r) (ctx_currentTime c - startTimeRef e))
      eqn:Hle; [|reflexivity].
    apply Qle_bool_iff in Hle. exfalso.
    exact (Qlt_not_le _ _ Hlt Hle).
Qed.

(** [playAudio] of a render in which nothing plays requests no frame: its
    [updatePlaybackTime] reads [isPlaying] of that render. *)
Lemma playAudio_requests_no_frame r e :
  isPlaying r = false ->
  frames (playAudio r e) = frames e /\
  currentTime (state (playAudio r e)) = currentTime (state e).
Proof.
  intros Hr. unfold playAudio.
  destruct (audioContextRef e); [|now split].
  destruct (audioBufferRef e); [|now split].
  destruct (audioContextRef (stopSourceNode e)) eqn:Hc.
  - unfold updatePlaybackTime. rewrite Hr. unfold createBufferSource. simpl.
    rewrite stopSourceNode_state. split; [|reflexivity].
    unfold stopSourceNode. now destruct (sourceNodeRef e).
  - rewrite stopSourceNode_state. split; [|reflexivity].
    unfold stopSourceNode. now destruct (sourceNodeRef e).
Qed.

(** The handler [playAudio] attaches to its source sets the position to
    zero: where the platform dispatches [ended] for the source that
    [pauseAudio] stopped, the position kept by the pause is lost when the
    handler runs. *)
Lemma onended_after_pause e :
  currentTime (state (onended ResetPlayback (pauseAudio e))) = 0 /\
  isPlaying (state (onended ResetPlayback (pauseAudio e))) = false.
Proof. split; reflexivity. Qed.

(** The fraction [handleSeek] computes lies between 0 and 1. *)
Lemma percentage_bounds x : 0 <= Qmax 0 (Qmin 1 x) <= 1.
Proof.
  split; [apply Q.le_max_l|].
  apply Q.max_lub; [discriminate|apply Q.le_min_l].
Qed.




(** Seeking to the middle and past the end of that buffer. *)
Example handleSeek_examples :
  let b := AudioBuffer.mk 4 4 [[0; 1 # 2; -1; 1 # 4]] in
  let env := mkEnv (fun _ => NetworkError) (fun _ => Some b) in
  let e := loadAudioBuffer env [] (mount (Some (mkContext 0 false 0 []))) in
  currentTime (state (handleSeek (state e) (mkMouseEvent 200 100 200) e))
    == 1 # 2 /\
  currentTime (state (handleSeek (state e) (mkMouseEvent 500 100 200) e))
    == 1 /\
  currentTime (state (handleSeek (state e) (mkMouseEvent 20 100 200) e))
    == 0.
Proof. repeat split. Qed.

(** A seek during playback: the position is set at once, and the timer that
    restarts playback 50 ms later runs the [playAudio] of the render the
    click was handled in, which starts the source at the position of that
    render and sets the position from it. *)
Example handleSeek_while_playing :
  let e1 := playAudio (state Session.loaded) Session.loaded in
  let e2 := handleSeek (state e1) (mkMouseEvent 200 100 200) e1 in
  let e3 := fire_timer e2 in
  isPlaying (state e1) = true /\
  currentTime (state e2) == 1 # 2 /\
  playing e2 = [] /\
  timers e2 = [mkTimer 50 (state e1)] /\
  src_offset <$> playing e3 = [0] /\
  currentTime (state e3) == 0.
Proof. repeat split. Qed.

(** *** One source at a time *)

Lemma updatePlaybackTime_refs r e :
  audioContextRef (updatePlaybackTime r e) = audioContextRef e /\
  sourceNodeRef (updatePlaybackTime r e) = sourceNodeRef e /\
  audioBufferRef (updatePlaybackTime r e) = audioBufferRef e /\
  requests (updatePlaybackTime r e) = requests e.
Proof.
  unfold updatePlaybackTime.
  destruct (isPlaying r); [|now repeat split].
  destruct (audioContextRef e) as [c|] eqn:Hc; [|now repeat split].
  destruct (Qle_bool _ _); simpl; now rewrite Hc.
Qed.

Lemma stopSourceNode_context e :
  is_Some (audioContextRef e) -> is_Some (audioContextRef (stopSourceNode e)).
Proof.
  intros [c Hc]. unfold stopSourceNode.
  destruct (sourceNodeRef e); simpl; rewrite Hc; simpl; eauto.
Qed.

(** [playAudio] on a component that tracks its source leaves exactly one
    source playing: the new one, on the loaded buffer, from the position of
    the render. *)
Lemma playAudio_single_source r e audioBuffer :
  tracked e ->
  is_Some (audioContextRef e) ->
  audioBufferRef e = Some audioBuffer ->
  exists source,
    playing (playAudio r e) = [source] /\
    sourceNodeRef (playAudio r e) = Some (src_id source) /\
    src_buffer source = audioBuffer /\
    src_offset source = currentTime r.
Proof.
  intros Htr Hctx Hbuf.
  pose proof (stopSourceNode_silent e Htr) as Hsilent.
  pose proof (stopSourceNode_context e Hctx) as [c1 Hc1].
  destruct Hctx as [c Hc].
  unfold playAudio. rewrite Hc, Hbuf, Hc1.
  unfold playing in Hsilent. rewrite Hc1 in Hsilent.
  unfold createBufferSource.
  match goal with
  | |- context [updatePlaybackTime r ?e'] =>
      destruct (updatePlaybackTime_refs r e') as (Hu1 & Hu2 & _)
  end.
  unfold playing. rewrite Hu1, Hu2. simpl.
  eexists. split; [|split; [|split]].
  - destruct (ctx_suspended c1); simpl; rewrite Hsilent; reflexivity.
  - destruct (ctx_suspended c1); reflexivity.
  - reflexivity.
  - reflexivity.
Qed.

Lemma tracked_one_source e source :
  playing e = [source] -> sourceNodeRef e = Some (src_id source) -> tracked e.
Proof.
  intros Hp Hr. unfold tracked. rewrite Hp. simpl.
  split; [lia|]. intros src [<-|[]]. exact Hr.
Qed.

Lemma tracked_silent e : playing e = [] -> tracked e.
Proof.
  intros Hp. unfold tracked. rewrite Hp. simpl. split; [lia|intros ? []].
Qed.

(** Calling [playAudio] twice in succession leaves exactly one source. *)
Lemma playAudio_twice r r' e audioBuffer :
  tracked e ->
  is_Some (audioContextRef e) ->
  audioBufferRef e = Some audioBuffer ->
  exists source,
    playing (playAudio r' (playAudio r e)) = [source] /\
    sourceNodeRef (playAudio r' (playAudio r e)) = Some (src_id source).
Proof.
  intros Htr Hctx Hbuf.
  destruct (playAudio_single_source r e audioBuffer Htr Hctx Hbuf)
    as (s1 & Hp1 & Hr1 & _).
  destruct (playAudio_single_source r' (playAudio r e) audioBuffer)
    as (s2 & Hp2 & Hr2 & _).
  - now apply tracked_one_source with s1.
  - unfold playing in Hp1.
    destruct (audioContextRef (playAudio r e)); [eauto|discriminate].
  - unfold playAudio. destruct Hctx as [c Hc]. rewrite Hc, Hbuf.
    destruct (stopSourceNode_context e (ex_intro _ c Hc)) as [c1 Hc1].
    rewrite Hc1. unfold createBufferSource.
    match goal with
    | |- context [updatePlaybackTime r ?e'] =>
        destruct (updatePlaybackTime_refs r e') as (_ & _ & Hu3 & _)
    end.
    rewrite Hu3. simpl. now rewrite stopSourceNode_buffer.
  - now exists s2.
Qed.

(** The loads and the pause keep the registry tracked. *)
Lemma pauseAudio_tracked e : tracked e -> tracked (pauseAudio e).
Proof.
  intros Htr. apply tracked_silent.
  rewrite pauseAudio_playing. now apply stopSourceNode_silent.
Qed.

Lemma mount_tracked ctx :
  (forall c, ctx = Some c -> ctx_playing c = []) -> tracked (mount ctx).
Proof.
  intros H. apply tracked_silent. unfold playing, mount; simpl.
  destruct ctx as [c|]; [now apply H|reflexivity].
Qed.

(** A clip that is fetched and decoded is started on a further source:
    [playSentenceAudio] stops nothing and leaves [sourceNodeRef] alone. *)
Lemma playSentenceAudio_adds_source r sentence env e c status body audioBuffer :
  hasAudioUrl sentence = true ->
  fetch env (url_text (Sentence.audioUrl sentence)) = Response status body ->
  ok status = true ->
  audioContextRef e = Some c ->
  decodeAudioData env body = Some audioBuffer ->
  exists source,
    playing (playSentenceAudio r sentence env e) = playing e ++ [source] /\
    src_buffer source = audioBuffer /\
    sourceNodeRef (playSentenceAudio r sentence env e) = sourceNodeRef e.
Proof.
  intros Hurl Hfetch Hok Hc Hdec.
  unfold playSentenceAudio. rewrite Hurl, Hfetch, Hok. cbn [request audioContextRef].
  rewrite Hc, Hdec. unfold playing. rewrite Hc. simpl.
  eexists. split; [reflexivity|split; reflexivity].
Qed.

(** C1, at the input where it fails: the full mix is playing and the clip of
    a sentence is played.  [playAudio] has left one source; after
    [playSentenceAudio] the context plays two, and [sourceNodeRef] still
    points to the first alone. *)
Theorem playSentenceAudio_second_source :
  let e1 := playAudio (state Session.loaded) Session.loaded in
  let e2 := playSentenceAudio (state e1) Session.s1 Session.online e1 in
  src_id <$> playing e1 = [0%nat] /\
  sourceNodeRef e1 = Some 0%nat /\
  src_id <$> playing e2 = [0%nat; 1%nat] /\
  sourceNodeRef e2 = Some 0%nat /\
  ~ tracked e2.
Proof.
  repeat split.
  intros [Hlen _]. vm_compute in Hlen. lia.
Qed.

(** Two clips played one after the other overlap as well. *)
Example playSentenceAudio_twice :
  let e1 := playSentenceAudio (state Session.loaded) Session.s1 Session.online
                              Session.loaded in
  let e2 := playSentenceAudio (state e1) Session.s1 Session.online e1 in
  src_id <$> playing e2 = [0%nat; 1%nat] /\ sourceNodeRef e2 = None.
Proof. repeat split. Qed.

(** *** Failed loads *)

Lemma playAudio_requests r e : requests (playAudio r e) = requests e.
Proof.
  unfold playAudio.
  destruct (audioContextRef e); [|reflexivity].
  destruct (audioBufferRef e); [|reflexivity].
  destruct (audioContextRef (stopSourceNode e));
    [|apply stopSourceNode_requests].
  unfold createBufferSource.
  match goal with
  | |- context [updatePlaybackTime r ?e'] =>
      destruct (updatePlaybackTime_refs r e') as (_ & _ & _ & ->)
  end.
  simpl. apply stopSourceNode_requests.
Qed.

Lemma quiet_buffer r e : audioBufferRef (quiet r e) = audioBufferRef e.
Proof.
  unfold quiet. rewrite stopSourceNode_buffer.
  destruct (isPlaying r); [apply pauseAudio_buffer|reflexivity].
Qed.

Lemma quiet_requests r e : requests (quiet r e) = requests e.
Proof.
  unfold quiet. rewrite stopSourceNode_requests.
  destruct (isPlaying r); [apply pauseAudio_requests|reflexivity].
Qed.

Lemma quiet_state r e :
  currentTime (state (quiet r e)) = currentTime (state e) /\
  duration (state (quiet r e)) = duration (state e) /\
  currentAudioType (state (quiet r e)) = currentAudioType (state e).
Proof.
  unfold quiet. rewrite stopSourceNode_state.
  destruct (isPlaying r); [rewrite pauseAudio_state|]; now repeat split.
Qed.

Lemma quiet_silent r e : tracked e -> playing (quiet r e) = [].
Proof.
  intros Htr. unfold quiet. apply stopSourceNode_silent.
  destruct (isPlaying r); [now apply pauseAudio_tracked|exact Htr].
Qed.

(** A load, failed or not, leaves no source playing. *)
Lemma loadAudioFromUrl_silent r env audioUrl audioType e :
  tracked e -> playing (loadAudioFromUrl r env audioUrl audioType e) = [].
Proof.
  intros Htr. rewrite <- (quiet_silent r e Htr).
  unfold loadAudioFromUrl. fold (quiet r e).
  destruct (fetch env audioUrl) as [|status body]; [reflexivity|].
  destruct (ok status); [|reflexivity].
  destruct (audioContextRef _) eqn:Hc; [|reflexivity].
  destruct (decodeAudioData env body); reflexivity.
Qed.

Lemma loadAudioFromUrl_failed r env audioUrl audioType e :
  load_fails env audioUrl ->
  loadAudioFromUrl r env audioUrl audioType e = request audioUrl (quiet r e).
Proof.
  unfold load_fails, loadAudioFromUrl, quiet.
  destruct (fetch env audioUrl) as [|status body]; [reflexivity|].
  intros [Hok|Hdec].
  - now rewrite Hok.
  - destruct (ok status); [|reflexivity].
    destruct (audioContextRef _); [|reflexivity]. now rewrite Hdec.
Qed.

Lemma loadAudioFromUrl_requests r env audioUrl audioType e :
  requests (loadAudioFromUrl r env audioUrl audioType e)
  = requests e ++ [audioUrl].
Proof.
  rewrite <- (quiet_requests r e). unfold loadAudioFromUrl. fold (quiet r e).
  destruct (fetch env audioUrl) as [|status body]; [reflexivity|].
  destruct (ok status); [|reflexivity].
  destruct (audioContextRef _); [|reflexivity].
  destruct (decodeAudioData env body); reflexivity.
Qed.

Lemma clearBuffer_cleared r e :
  audioBufferRef (clearBuffer r e) = None /\
  duration (state (clearBuffer r e)) = 0 /\
  requests (clearBuffer r e) = requests e.
Proof.
  unfold clearBuffer. fold (quiet r e). simpl.
  repeat split. apply quiet_requests.
Qed.

(** C3 as stated fails on [forceLoadCompleteAudio]: with the full mix loaded
    and the network down, the load fails, the buffer that was loaded is gone,
    the duration is 0, and the promise resolves to [true] as it does after a
    load that succeeded. *)
Lemma forceLoadCompleteAudio_failure_loses_buffer :
  let e := Session.loaded in
  let failure :=
    forceLoadCompleteAudio (state e) Session.props Session.offline
                           1700000000000 e in
  let success :=
    forceLoadCompleteAudio (state e) Session.props Session.online
                           1700000000000 e in
  load_fails Session.offline "/api/download/mix.wav?t=1700000000000" /\
  requests failure.1 = ["/api/download/mix.wav?t=1700000000000"] /\
  audioBufferRef e = Some Session.mix /\
  audioBufferRef failure.1 = None /\
  audioBufferRef failure.1 <> audioBufferRef e /\
  duration (state e) == 1 /\
  duration (state failure.1) = 0 /\
  ~ duration (state failure.1) == duration (state e) /\
  failure.2 = true /\
  audioBufferRef success.1 = Some Session.mix /\
  success.2 = true.
Proof.
  cbv zeta.
  split; [exact I|]. split; [reflexivity|]. split; [reflexivity|].
  split; [reflexivity|]. split; [discriminate|]. split; [reflexivity|].
  split; [reflexivity|]. split; [discriminate|]. repeat split.
Qed.

(** *** The cache-defeating parameter *)

Lemma decimal_inj t1 t2 : decimal t1 = decimal t2 -> t1 = t2.
Proof.
  unfold decimal. intros H. apply DecimalZ.to_int_inj.
  assert (Hparse : forall t,
             NilZero.int_of_string (NilZero.string_of_int (Z.to_int t))
             = Some (Z.to_int t)).
  { intros t. apply NilZero.isi; destruct t; simpl; try discriminate;
      intros [= Hnil]; exact (DecimalPos.Unsigned.to_uint_nonnil _ Hnil). }
  pose proof (Hparse t1) as H1. rewrite H, Hparse in H1. congruence.
Qed.

Lemma cacheBustedUrl_inj url t1 t2 :
  cacheBustedUrl url t1 = cacheBustedUrl url t2 <-> t1 = t2.
Proof.
  split; [|now intros ->].
  unfold cacheBustedUrl. intros H.
  apply decimal_inj.
  now apply (inj (String.app "?t=")), (inj (String.app url)).
Qed.

Lemma playModifiedFullAudio_requests r sentence env now e :
  hasModifiedAudioUrl sentence = true ->
  requests (playModifiedFullAudio r sentence env now e)
  = requests e
    ++ [cacheBustedUrl (url_text (Sentence.modifiedAudioUrl sentence)) now].
Proof.
  intros H. unfold playModifiedFullAudio. rewrite H.
  rewrite playAudio_requests. apply loadAudioFromUrl_requests.
Qed.

(** C5, as amended.  [loadModifiedFullAudio], [loadCompleteAudio],
    [forceLoadCompleteAudio], [playModifiedFullAudio], [loadExportedAudio]
    and the fallback load of the effect on the sentences request their URL
    with [?t=] and the reading of [Date.now()] appended; the URLs requested
    by two loads of one URL differ exactly when the two readings differ. *)
Theorem loads_request_cache_busted_url (r : State) (props : Props) (env : Env)
    (now : Z) (e : Editor) :
  (forall s,
      List.find hasModifiedAudioUrl (sentences props) = Some s ->
      let url :=
        url_text (Sentence.modifiedAudioUrl s) +:+ "?t=" +:+ decimal now in
      requests (loadModifiedFullAudio r props env now e) = requests e ++ [url]
      /\ requests (loadCompleteAudio r props env now e).1
         = requests e ++ [url]
      /\ requests (forceLoadCompleteAudio r props env now e).1
         = requests e ++ [url]) /\
  (forall sentence,
      hasModifiedAudioUrl sentence = true ->
      requests (playModifiedFullAudio r sentence env now e)
      = requests e
        ++ [url_text (Sentence.modifiedAudioUrl sentence)
            +:+ "?t=" +:+ decimal now]) /\
  (forall exportedFilename,
      requests (loadExportedAudio r exportedFilename env now e).1
      = requests e
        ++ [("/api/download/" +:+ exportedFilename)
            +:+ "?t=" +:+ decimal now]) /\
  (forall s b,
      sentences props = b :: List.tl (sentences props) ->
      is_Some (audioContextRef e) -> audioBufferRef e = None ->
      List.find hasAudioUrl (sentences props) = Some s ->
      requests (sentencesEffect r props env now e)
      = requests e
        ++ [url_text (Sentence.audioUrl s) +:+ "?t=" +:+ decimal now]) /\
  (forall url now',
      url +:+ "?t=" +:+ decimal now <> url +:+ "?t=" +:+ decimal now'
      <-> now <> now').
Proof.
  split; [|split; [|split; [|split]]].
  - intros s Hfind. cbv zeta.
    unfold forceLoadCompleteAudio, loadCompleteAudio, loadModifiedFullAudio.
    rewrite Hfind. cbn [fst]. rewrite !loadAudioFromUrl_requests.
    destruct (clearBuffer_cleared r e) as (_ & _ & ->). now repeat split.
  - intros sentence H. now apply playModifiedFullAudio_requests.
  - intros exportedFilename. unfold loadExportedAudio. cbn [fst].
    rewrite loadAudioFromUrl_requests.
    destruct (clearBuffer_cleared r e) as (_ & _ & ->). reflexivity.
  - intros s b Hne [c Hc] Hbuf Hfind. unfold sentencesEffect.
    rewrite Hne, Hc, Hbuf. rewrite <- Hne, Hfind.
    apply loadAudioFromUrl_requests.
  - intros url now'.
    pose proof (cacheBustedUrl_inj url now now') as Hinj.
    unfold cacheBustedUrl in Hinj. now rewrite Hinj.
Qed.

(** C5 as stated fails twice.  Two loads of the full mix within one reading
    of the millisecond clock request the same URL, parameter included; and
    [playSentenceAudio] requests the URL of the clip as the sentence holds
    it, with no parameter. *)
Lemma cache_parameter_repeats :
  let r := state Session.loaded in
  let e1 :=
    loadModifiedFullAudio r Session.props Session.online 1700000000000
                          Session.loaded in
  let e2 :=
    loadModifiedFullAudio (state e1) Session.props Session.online
                          1700000000000 e1 in
  requests e2 = ["/api/download/mix.wav?t=1700000000000";
                 "/api/download/mix.wav?t=1700000000000"] /\
  requests (playSentenceAudio r Session.s1 Session.online Session.loaded)
  = ["/api/download/s1.wav"] /\
  Sentence.audioUrl Session.s1 = Some "/api/download/s1.wav".
Proof. repeat split. Qed.

(** Two loads a millisecond apart. *)
Example cache_parameter_changes :
  let r := state Session.loaded in
  let e1 :=
    loadModifiedFullAudio r Session.props Session.online 1700000000000
                          Session.loaded in
  let e2 :=
    loadModifiedFullAudio (state e1) Session.props Session.online
                          1700000000001 e1 in
  requests e2 = ["/api/download/mix.wav?t=1700000000000";
                 "/api/download/mix.wav?t=1700000000001"].
Proof. reflexivity. Qed.

End EngineModel.

(** ** The engine under the event loop *)

Section EventLoop.

Import Engine Loop.
Local Open Scope Q_scope.

(** What an [ended] handler leaves alone. *)
Lemma onended_refs h e :
  audioContextRef (onended h e) = audioContextRef e /\
  audioBufferRef (onended h e) = audioBufferRef e /\
  sourceNodeRef (onended h e) = sourceNodeRef e /\
  playing (onended h e) = playing e /\
  duration (state (onended h e)) = duration (state e) /\
  currentAudioType (state (onended h e)) = currentAudioType (state e).
Proof. destruct h; repeat split. Qed.



(** What every [ended] handler keeps holds after any number of
    dispatches. *)
Lemma ended_events_invariant (P : Editor -> Prop) :
  (forall h e, P e -> P (onended h e)) ->
  forall n p, P (editor p) -> P (editor (ended_events n p)).
Proof.
  intros Hkeep n p Hp. induction n as [|n IH]; [exact Hp|].
  change (ended_events (S n) p) with (dispatchEnded (ended_events n p)).
  unfold dispatchEnded. destruct (ended (ended_events n p)); [exact IH|].
  now apply Hkeep.
Qed.

(** The functions of [Engine] are their tasks run with nothing in
    between. *)
Lemma loadAudioFromUrl_tasks_atomic r env audioUrl audioType e :
  fold_left (fun e f => f e) (loadAudioFromUrl_tasks r env audioUrl audioType)
            e
  = loadAudioFromUrl r env audioUrl audioType e.
Proof. reflexivity. Qed.

Lemma forceLoadCompleteAudio_tasks_atomic r props env now e :
  fold_left (fun e f => f e) (forceLoadCompleteAudio_tasks r props env now) e
  = (forceLoadCompleteAudio r props env now e).1.
Proof.
  unfold forceLoadCompleteAudio_tasks, loadCompleteAudio_tasks,
    forceLoadCompleteAudio, loadCompleteAudio.
  destruct (List.find hasModifiedAudioUrl (sentences props));
    [reflexivity|].
  destruct (processedAudio props); reflexivity.
Qed.

Lemma loadExportedAudio_tasks_atomic r exportedFilename env now e :
  fold_left (fun e f => f e)
            (loadExportedAudio_tasks r exportedFilename env now) e
  = (loadExportedAudio r exportedFilename env now e).1.
Proof. reflexivity. Qed.

Lemma loadAudioFromUrl_begin_quiet r audioUrl e :
  loadAudioFromUrl_begin r audioUrl e = request audioUrl (quiet r e).
Proof. reflexivity. Qed.

Lemma loadAudioFromUrl_resume_failed env audioUrl audioType e :
  load_fails env audioUrl ->
  loadAudioFromUrl_resume env audioUrl audioType e = e.
Proof.
  unfold load_fails, loadAudioFromUrl_resume.
  destruct (fetch env audioUrl) as [|status body]; [reflexivity|].
  intros [Hok|Hdec].
  - now rewrite Hok.
  - destruct (ok status); [|reflexivity].
    destruct (audioContextRef e); [|reflexivity]. now rewrite Hdec.
Qed.

(** The buffer, the duration and the audio type through a load that
    fails, with the [ended] events dispatched meanwhile. *)
Lemma failed_load_interleaved r env audioUrl audioType gaps p :
  load_fails env audioUrl ->
  let p' :=
    interleave (loadAudioFromUrl_tasks r env audioUrl audioType) gaps p in
  audioBufferRef (editor p') = audioBufferRef (editor p) /\
  duration (state (editor p')) = duration (state (editor p)) /\
  currentAudioType (state (editor p'))
  = currentAudioType (state (editor p)).
Proof.
  intros Hfail. cbv zeta. cbn [loadAudioFromUrl_tasks interleave].
  set (P := fun e' : Editor =>
              audioBufferRef e' = audioBufferRef (editor p) /\
              duration (state e') = duration (state (editor p)) /\
              currentAudioType (state e')
              = currentAudioType (state (editor p))).
  assert (Hkeep : forall h e', P e' -> P (onended h e')).
  { intros h e' (Hb & Hd & Ha).
    destruct (onended_refs h e') as (_ & Hb' & _ & _ & Hd' & Ha').
    unfold P. now rewrite Hb', Hd', Ha'. }
  apply (ended_events_invariant P Hkeep).
  cbn [task editor]. rewrite loadAudioFromUrl_resume_failed by exact Hfail.
  apply (ended_events_invariant P Hkeep).
  cbn [task editor]. rewrite loadAudioFromUrl_begin_quiet.
  destruct (quiet_state r (editor p)) as (_ & Hd & Ha).
  unfold P. cbn [request state audioBufferRef].
  now rewrite quiet_buffer.
Qed.

(** C3, as amended.  A load through [loadAudioFromUrl] whose fetch fails
    (network error or a status outside 2xx) or whose bytes do not decode
    leaves the loaded buffer, the duration and the audio type as they were,
    whatever [ended] events are dispatched while it waits and after it.
    [forceLoadCompleteAudio] and [loadExportedAudio] clear the buffer and set
    the duration to 0 before they load: after a failed load through them no
    buffer is loaded and the duration is 0.  A file whose bytes do not
    decode leaves the component as it was. *)
Theorem failed_load_keeps_buffer (r : State) (env : Env) (audioUrl : string)
    (audioType : AudioType) (p : Page) (gaps : list nat) :
  load_fails env audioUrl ->
  (let p' :=
     interleave (loadAudioFromUrl_tasks r env audioUrl audioType) gaps p in
   audioBufferRef (editor p') = audioBufferRef (editor p) /\
   duration (state (editor p')) = duration (state (editor p)) /\
   currentAudioType (state (editor p'))
   = currentAudioType (state (editor p))) /\
  (forall props now s,
      List.find hasModifiedAudioUrl (sentences props) = Some s ->
      audioUrl = cacheBustedUrl (url_text (Sentence.modifiedAudioUrl s)) now ->
      let p' :=
        interleave (forceLoadCompleteAudio_tasks r props env now) gaps p in
      audioBufferRef (editor p') = None /\
      duration (state (editor p')) = 0) /\
  (forall exportedFilename now,
      audioUrl = cacheBustedUrl ("/api/download/" +:+ exportedFilename) now ->
      let p' :=
        interleave (loadExportedAudio_tasks r exportedFilename env now) gaps
                   p in
      audioBufferRef (editor p') = None /\
      duration (state (editor p')) = 0) /\
  (forall audioFile,
      decodeAudioData env audioFile = None ->
      loadAudioBuffer env audioFile (editor p) = editor p).
Proof.
  intros Hfail.
  assert (Hcleared : forall audioType' gaps',
    let p' :=
      interleave (clearBuffer r
                    :: loadAudioFromUrl_tasks r env audioUrl audioType')
                 gaps' p in
    audioBufferRef (editor p') = None /\ duration (state (editor p')) = 0).
  { intros audioType' gaps'. cbv zeta.
    change (interleave (clearBuffer r :: ?l) gaps' p)
      with (interleave l (tl gaps')
              (ended_events (hd O gaps') (task (clearBuffer r) p))).
    destruct (failed_load_interleaved r env audioUrl audioType' (tl gaps')
                (ended_events (hd O gaps') (task (clearBuffer r) p)) Hfail)
      as (Hb & Hd & _).
    rewrite Hb, Hd.
    apply (ended_events_invariant
             (fun e' => audioBufferRef e' = None /\ duration (state e') = 0)).
    - intros h e' [Hb' Hd'].
      destruct (onended_refs h e') as (_ & Hb'' & _ & _ & Hd'' & _).
      now rewrite Hb'', Hd''.
    - cbn [task editor].
      destruct (clearBuffer_cleared r (editor p)) as (Hb' & Hd' & _).
      now split. }
  split; [now apply failed_load_interleaved|].
  split; [|split].
  - intros props now s Hfind ->.
    unfold forceLoadCompleteAudio_tasks, loadCompleteAudio_tasks.
    rewrite Hfind. apply Hcleared.
  - intros exportedFilename now ->. apply Hcleared.
  - intros audioFile Hdec. unfold loadAudioBuffer. rewrite Hdec.
    now destruct (audioContextRef (editor p)).
Qed.

(** The load of the full mix, while the mix plays, from a server that
    answers 404; the [ended] event of the source the load stopped is
    dispatched while the load waits. *)
Lemma failed_load_keeps_buffer_witness :
  let e := playAudio (state Session.loaded) Session.loaded in
  let r := state e in
  let p := mkPage e [] in
  let url := "/api/download/mix.wav?t=1700000000000" in
  (let p' :=
     interleave (loadAudioFromUrl_tasks r Session.missing url modified)
                [1%nat] p in
   audioBufferRef (editor p') = audioBufferRef (editor p) /\
   duration (state (editor p')) = duration (state (editor p)) /\
   currentAudioType (state (editor p'))
   = currentAudioType (state (editor p))) /\
  (forall props now s,
      List.find hasModifiedAudioUrl (sentences props) = Some s ->
      url = cacheBustedUrl (url_text (Sentence.modifiedAudioUrl s)) now ->
      let p' :=
        interleave (forceLoadCompleteAudio_tasks r props Session.missing now)
                   [1%nat] p in
      audioBufferRef (editor p') = None /\
      duration (state (editor p')) = 0) /\
  (forall exportedFilename now,
      url = cacheBustedUrl ("/api/download/" +:+ exportedFilename) now ->
      let p' :=
        interleave
          (loadExportedAudio_tasks r exportedFilename Session.missing now)
          [1%nat] p in
      audioBufferRef (editor p') = None /\
      duration (state (editor p')) = 0) /\
  (forall audioFile,
      decodeAudioData Session.missing audioFile = None ->
      loadAudioBuffer Session.missing audioFile (editor p) = editor p).
Proof.
  intros e r p url.
  apply (failed_load_keeps_buffer r Session.missing url modified p [1%nat]).
  simpl. left. reflexivity.
Defined.

(** The position does not come through such a load when a source was
    playing: the [ended] event of the source the load stopped sets it to
    0. *)
Example failed_load_rewinds :
  let e0 := setCurrentTime (1 # 2) Session.loaded in
  let e := playAudio (state e0) e0 in
  let p' :=
    interleave
      (loadAudioFromUrl_tasks (state e) Session.missing
                              "/api/download/mix.wav?t=1700000000000"
                              modified)
      [1%nat] (mkPage e []) in
  currentTime (state e) == 1 # 2 /\
  audioBufferRef (editor p') = Some Session.mix /\
  currentTime (state (editor p')) = 0.
Proof. vm_compute. repeat split. Qed.

(** The [ended] event of a source that [pauseAudio] stopped runs the
    handler [playAudio] gave it: whatever position the pause left, the
    position is 0 once the event is dispatched. *)
Lemma pauseAudio_then_ended e src :
  tracked e ->
  In src (playing e) ->
  src_onended src = ResetPlayback ->
  let paused := task pauseAudio (mkPage e []) in
  currentTime (state (editor paused)) = currentTime (state e) /\
  ended paused = [src] /\
  currentTime (state (editor (dispatchEnded paused))) = 0 /\
  ended (dispatchEnded paused) = [].
Proof.
  intros Htr Hin Hh. cbv zeta.
  assert (Hp : playing e = [src]).
  { destruct Htr as [Hlen _]. destruct (playing e) as [|x [|y l]] eqn:Hpl.
    - destruct Hin.
    - destruct Hin as [->|[]]. reflexivity.
    - simpl in Hlen. lia. }
  assert (Hq : playing (pauseAudio e) = []).
  { rewrite pauseAudio_playing. now apply stopSourceNode_silent. }
  assert (Hs : ended (task pauseAudio (mkPage e [])) = [src]).
  { unfold task, stopped. cbn [editor ended]. rewrite Hp, Hq. reflexivity. }
  split; [cbn [task editor]; now rewrite pauseAudio_state|].
  split; [exact Hs|].
  unfold dispatchEnded. rewrite Hs, Hh. split; reflexivity.
Qed.

(** C2, at the inputs where it fails.  The full mix is loaded.  First:
    the position is set to a half by a click on the bar, the play button is
    clicked, a quarter of a second passes, and the pause button is clicked.
    [playAudio] has requested no frame, so no position was computed while
    the source played, and the pause leaves the half; the [ended] event of
    the source it stopped then sets the position to 0.  Second: playback is
    restarted by a click on the bar, which makes the frames run; after a
    quarter of a second a frame computes the position a quarter.  The pause
    leaves it and cancels the pending frame; the [ended] event of the
    source it stopped then sets the position to 0, and the next click on
    the play button starts the source at 0. *)
Theorem pauseAudio_position_reset :
  let middle := mkMouseEvent 100 0 200 in
  let loaded := mkPage Session.loaded [] in
  let played :=
    run [Act (Run.Seek middle); Act Run.ClickPlayPause;
         Act (Run.Elapse (1 # 4)); Act Run.Frame] loaded in
  let paused := step (Act Run.ClickPlayPause) played in
  let restarted :=
    run [Act Run.ClickPlayPause; Act (Run.Seek middle); Ended;
         Act Run.TimerFires; Act (Run.Elapse (1 # 4)); Act Run.Frame]
        loaded in
  let paused' := step (Act Run.ClickPlayPause) restarted in
  let resumed := step (Act Run.ClickPlayPause) (step Ended paused') in
  (isPlaying (state (editor played)) = true /\
   frames (editor played) = [] /\
   currentTime (state (editor played)) == 1 # 2 /\
   currentTime (state (editor paused)) == 1 # 2 /\
   isPlaying (state (editor paused)) = false /\
   src_onended <$> ended paused = [ResetPlayback] /\
   currentTime (state (editor (step Ended paused))) = 0) /\
  (isPlaying (state (editor restarted)) = true /\
   fst <$> frames (editor restarted) = [2%nat] /\
   currentTime (state (editor restarted)) == 1 # 4 /\
   currentTime (state (editor paused')) == 1 # 4 /\
   isPlaying (state (editor paused')) = false /\
   frames (editor paused') = [] /\
   playing (editor paused') = [] /\
   src_onended <$> ended paused' = [ResetPlayback] /\
   currentTime (state (editor (step Ended paused'))) = 0 /\
   ~ currentTime (state (editor (step Ended paused')))
     == currentTime (state (editor restarted)) /\
   exists source,
     playing (editor resumed) = [source] /\ src_offset source = 0).
Proof.
  vm_compute. split.
  - do 6 (split; [reflexivity|]). reflexivity.
  - do 9 (split; [reflexivity|]). split; [discriminate|].
    eexists. split; reflexivity.
Qed.

End EventLoop.

(** ** The WAV encoder *)

Section WavEncoder.

Import Wav.

Lemma le_bytes_length n value : List.length (le_bytes n value) = n.
Proof. revert value. induction n; intros; simpl; [|rewrite IHn]; reflexivity. Qed.

(** A store at the end of what has been written so far, into the zeros that
    follow it. *)
Lemma store_cursor (written bytes : list Z) (rest byteOffset : nat) :
  byteOffset = List.length written ->
  store (written ++ replicate (List.length bytes + rest) 0%Z) byteOffset bytes
  = Some ((written ++ bytes) ++ replicate rest 0%Z).
Proof.
  intros ->. unfold store.
  rewrite decide_True
    by (rewrite length_app, length_replicate; lia).
  f_equal. rewrite replicate_add, <- (Nat.add_0_r (List.length written)).
  rewrite list_inserts_app_r, list_inserts_0_r
    by (now rewrite length_replicate).
  now rewrite <- app_assoc.
Qed.

Lemma store_le_bytes (written : list Z) (n rest byteOffset : nat) value :
  byteOffset = List.length written ->
  store (written ++ replicate (n + rest) 0%Z) byteOffset (le_bytes n value)
  = Some ((written ++ le_bytes n value) ++ replicate rest 0%Z).
Proof.
  intros H. rewrite <- (le_bytes_length n value) at 1.
  now apply store_cursor.
Qed.

Lemma writeString_cursor (s : string) (written : list Z) (rest offset : nat) :
  offset = List.length written ->
  writeString (written ++ replicate (String.length s + rest) 0%Z) offset s
  = Some ((written ++ codes s) ++ replicate rest 0%Z).
Proof.
  revert written offset. induction s as [|c s IH]; intros written offset Hoff.
  - simpl. unfold codes. simpl. now rewrite app_nil_r.
  - cbn [writeString String.length]. unfold setUint8.
    replace (S (String.length s) + rest)%nat
      with (1 + (String.length s + rest))%nat by lia.
    rewrite store_le_bytes by exact Hoff.
    cbn [mbind option_bind].
    rewrite IH by (rewrite length_app; simpl; lia).
    unfold codes. cbn [list_ascii_of_string fmap list_fmap le_bytes].
    now rewrite <- !app_assoc.
Qed.

Lemma writeHeader_filled (numChannels sampleRate length : Z) (rest : nat) :
  writeHeader numChannels sampleRate length (ArrayBuffer (44 + rest))
  = Some (wav_header numChannels sampleRate length ++ replicate rest 0%Z).
Proof.
  unfold writeHeader, ArrayBuffer, setUint32, setUint16.
  change (replicate (44 + rest) 0%Z)
    with ([] ++ replicate
            (String.length "RIFF" + (4 + (String.length "WAVE"
             + (String.length "fmt " + (4 + (2 + (2 + (4 + (4 + (2 + (2
             + (String.length "data" + (4 + rest))))))))))))) 0%Z).
  repeat (first [rewrite writeString_cursor by reflexivity
                |rewrite store_le_bytes by reflexivity];
          cbn [mbind option_bind]).
  unfold wav_header. now rewrite <- !app_assoc.
Qed.

Lemma wav_header_length numChannels sampleRate length :
  List.length (wav_header numChannels sampleRate length) = 44%nat.
Proof. reflexivity. Qed.

Lemma writeSample_cursor audioBuffer i channel (written : list Z)
    (rest offset : nat) :
  offset = List.length written ->
  writeSample audioBuffer i channel
              (written ++ replicate (2 + rest) 0%Z, offset)
  = Some ((written ++ le_bytes 2 (int16_of audioBuffer i channel))
          ++ replicate rest 0%Z,
          (offset + 2)%nat).
Proof.
  intros Hoff. unfold writeSample, setInt16. cbn [fst snd].
  fold (int16_of audioBuffer i channel).
  now rewrite store_le_bytes by exact Hoff.
Qed.

(** The inner loop, over the channels [cs] still to be written. *)
Lemma writeSample_loop audioBuffer i (cs : list nat) (written : list Z)
    (rest offset : nat) :
  offset = List.length written ->
  for_each (fun channel => writeSample audioBuffer i channel) cs
           (written ++ replicate (2 * List.length cs + rest) 0%Z, offset)
  = Some ((written
           ++ flat_map (fun channel =>
                          le_bytes 2 (int16_of audioBuffer i channel)) cs)
          ++ replicate rest 0%Z,
          (offset + 2 * List.length cs)%nat).
Proof.
  revert written offset.
  induction cs as [|channel cs IH]; intros written offset Hoff.
  - simpl. now rewrite app_nil_r, Nat.add_0_r.
  - cbn [for_each List.length flat_map].
    replace (2 * S (List.length cs) + rest)%nat
      with (2 + (2 * List.length cs + rest))%nat by lia.
    rewrite writeSample_cursor by exact Hoff.
    cbn [mbind option_bind].
    rewrite IH by (rewrite length_app, le_bytes_length; lia).
    f_equal. f_equal; [now rewrite <- !app_assoc|lia].
Qed.

Lemma flat_map_length_chunks {A B : Type} (f : A -> list B) (k : nat)
    (l : list A) :
  (forall a, List.length (f a) = k) ->
  List.length (flat_map f l) = (List.length l * k)%nat.
Proof.
  intros Hk. induction l as [|a l IH]; [reflexivity|].
  cbn [flat_map List.length]. rewrite length_app, Hk, IH. lia.
Qed.

Lemma flat_map_lookup_chunks {A B : Type} (f : A -> list B) (k : nat)
    (l : list A) (i j : nat) (a : A) :
  (forall a, List.length (f a) = k) ->
  l !! i = Some a -> (j < k)%nat ->
  flat_map f l !! (i * k + j)%nat = f a !! j.
Proof.
  intros Hk. revert i. induction l as [|x l IH]; intros i Hi Hj.
  - destruct i; discriminate.
  - cbn [flat_map]. destruct i as [|i]; simpl in Hi.
    + injection Hi as ->. simpl. apply lookup_app_l. now rewrite Hk.
    + rewrite lookup_app_r by (rewrite Hk; lia).
      rewrite Hk. replace (S i * k + j - k)%nat with (i * k + j)%nat by lia.
      now apply IH.
Qed.

Lemma frame_bytes_length audioBuffer i :
  List.length (frame_bytes audioBuffer i)
  = (2 * AudioBuffer.numberOfChannels audioBuffer)%nat.
Proof.
  unfold frame_bytes.
  rewrite (flat_map_length_chunks _ 2) by (intros; apply le_bytes_length).
  rewrite length_seq. lia.
Qed.

(** The outer loop, over the frames [frames] still to be written. *)
Lemma frame_loop audioBuffer (frames : list nat) (written : list Z)
    (rest offset : nat) :
  offset = List.length written ->
  for_each
    (fun i => for_each (fun channel => writeSample audioBuffer i channel)
                       (seq 0 (AudioBuffer.numberOfChannels audioBuffer)))
    frames
    (written
     ++ replicate (List.length frames
                   * (2 * AudioBuffer.numberOfChannels audioBuffer) + rest)
                  0%Z,
     offset)
  = Some ((written ++ flat_map (frame_bytes audioBuffer) frames)
          ++ replicate rest 0%Z,
          (offset + List.length frames
                    * (2 * AudioBuffer.numberOfChannels audioBuffer))%nat).
Proof.
  set (numChannels := AudioBuffer.numberOfChannels audioBuffer).
  revert written offset.
  induction frames as [|i frames IH]; intros written offset Hoff.
  - simpl. now rewrite app_nil_r, Nat.add_0_r.
  - cbn [for_each List.length flat_map].
    replace (S (List.length frames) * (2 * numChannels) + rest)%nat
      with (2 * List.length (seq 0 numChannels)
            + (List.length frames * (2 * numChannels) + rest))%nat
      by (rewrite length_seq; lia).
    rewrite writeSample_loop by exact Hoff.
    cbn [mbind option_bind].
    change (flat_map _ (seq 0 numChannels)) with (frame_bytes audioBuffer i).
    rewrite IH
      by (rewrite length_app, frame_bytes_length; fold numChannels;
          rewrite length_seq in *; lia).
    rewrite length_seq.
    f_equal. f_equal; [now rewrite <- !app_assoc|lia].
Qed.

(** The encoder never throws, and what it returns is the header followed by
    the data chunk. *)
Lemma audioBufferToWav_bytes audioBuffer :
  audioBufferToWav audioBuffer
  = Some (wav_header (Z.of_nat (AudioBuffer.numberOfChannels audioBuffer))
                     (AudioBuffer.sampleRate audioBuffer)
                     (Z.of_nat (AudioBuffer.length audioBuffer))
          ++ wav_data audioBuffer).
Proof.
  unfold audioBufferToWav.
  rewrite writeHeader_filled. cbn [mbind option_bind].
  replace (AudioBuffer.length audioBuffer
           * AudioBuffer.numberOfChannels audioBuffer * 2)%nat
    with (List.length (seq 0 (AudioBuffer.length audioBuffer))
          * (2 * AudioBuffer.numberOfChannels audioBuffer) + 0)%nat
    by (rewrite length_seq; lia).
  rewrite frame_loop by reflexivity.
  cbn [mbind option_bind fst]. fold (wav_data audioBuffer).
  now rewrite app_nil_r.
Qed.

(** *** The samples *)

Local Open Scope Q_scope.

Lemma clamp_bounds x : -1 <= clamp x <= 1.
Proof.
  unfold clamp. split; [apply Q.le_max_l|].
  apply Q.max_lub; [discriminate|apply Q.le_min_l].
Qed.

Lemma scale_cases sample :
  (sample < 0 /\ scale sample = sample * 32768) \/
  (0 <= sample /\ scale sample = sample * 32767).
Proof.
  unfold scale. destruct (sample ?= 0) eqn:Hc.
  - right. split; [|reflexivity]. apply Qeq_alt in Hc. rewrite Hc. apply Qle_refl.
  - left. split; [|reflexivity]. now apply Qlt_alt.
  - right. split; [|reflexivity]. apply Qlt_le_weak. now apply Qgt_alt.
Qed.

Lemma scale_bounds sample :
  -1 <= sample <= 1 -> -32768 <= scale sample <= 32767.
Proof.
  intros [Hlo Hhi].
  destruct (scale_cases sample) as [[Hneg ->]|[Hpos ->]];
    unfold Qle, Qlt in *; simpl in *; lia.
Qed.

Lemma Qtruncate_bounds x :
  -32768 <= x <= 32767 -> (-32768 <= Qtruncate x <= 32767)%Z.
Proof.
  unfold Qtruncate, Qle. destruct x as [n d]. simpl. intros [Hlo Hhi].
  pose proof (Z.quot_rem' n (Z.pos d)) as Hqr.
  destruct (Z_le_gt_dec 0 n) as [Hn|Hn].
  - pose proof (Z.rem_bound_pos n (Z.pos d) Hn ltac:(lia)). nia.
  - pose proof (Z.rem_bound_pos_neg n (Z.pos d) ltac:(lia) ltac:(lia)). nia.
Qed.

Lemma ToInt16_in_range x :
  (-32768 <= Qtruncate x <= 32767)%Z -> ToInt16 x = Qtruncate x.
Proof.
  unfold ToInt16. intros H.
  destruct (Z.leb_spec 32768 (Qtruncate x mod 65536));
    Z.to_euclidean_division_equations; lia.
Qed.

Lemma getInt16_le_bytes v :
  (-32768 <= v <= 32767)%Z ->
  le_bytes 2 v = [(v mod 256)%Z; (v / 256 mod 256)%Z] /\
  getInt16 (v mod 256) (v / 256 mod 256) = v.
Proof.
  intros H. split; [reflexivity|]. unfold getInt16.
  destruct (Z.leb_spec 32768 (v mod 256 + 256 * (v / 256 mod 256)));
    Z.to_euclidean_division_equations; lia.
Qed.

Lemma int16_of_range audioBuffer i channel :
  (-32768 <= int16_of audioBuffer i channel <= 32767)%Z.
Proof.
  unfold int16_of, pcm. destruct (getSample audioBuffer channel i) as [x|];
    simpl; [|lia].
  pose proof (Qtruncate_bounds _ (scale_bounds _ (clamp_bounds x))) as H.
  now rewrite ToInt16_in_range.
Qed.

Lemma getSample_wf audioBuffer channel i :
  AudioBuffer.wf audioBuffer ->
  (channel < AudioBuffer.numberOfChannels audioBuffer)%nat ->
  (i < AudioBuffer.length audioBuffer)%nat ->
  is_Some (getSample audioBuffer channel i).
Proof.
  unfold AudioBuffer.wf, AudioBuffer.numberOfChannels, getSample.
  intros Hwf Hc Hi.
  destruct (lookup_lt_is_Some_2 _ _ Hc) as [ch Hch]. rewrite Hch. simpl.
  apply lookup_lt_is_Some_2.
  rewrite Forall_forall in Hwf. rewrite (Hwf ch); [exact Hi|].
  eapply list_elem_of_lookup_2. exact Hch.
Qed.

(** Where the bytes of one sample lie in the file. *)
Lemma wav_sample_lookup audioBuffer i channel (j : nat) :
  (i < AudioBuffer.length audioBuffer)%nat ->
  (channel < AudioBuffer.numberOfChannels audioBuffer)%nat ->
  (j < 2)%nat ->
  (wav_header (Z.of_nat (AudioBuffer.numberOfChannels audioBuffer))
              (AudioBuffer.sampleRate audioBuffer)
              (Z.of_nat (AudioBuffer.length audioBuffer))
   ++ wav_data audioBuffer)
    !! (44 + 2 * (i * AudioBuffer.numberOfChannels audioBuffer + channel) + j)%nat
  = le_bytes 2 (int16_of audioBuffer i channel) !! j.
Proof.
  intros Hi Hc Hj.
  rewrite lookup_app_r by (rewrite wav_header_length; lia).
  rewrite wav_header_length.
  replace (44 + 2 * (i * AudioBuffer.numberOfChannels audioBuffer + channel)
           + j - 44)%nat
    with (i * (2 * AudioBuffer.numberOfChannels audioBuffer)
          + (channel * 2 + j))%nat by lia.
  unfold wav_data.
  rewrite (flat_map_lookup_chunks _ _ _ i _ i (frame_bytes_length audioBuffer))
    by (first [lia|rewrite lookup_seq_lt by lia; reflexivity]).
  unfold frame_bytes.
  now rewrite (flat_map_lookup_chunks _ 2 _ channel j channel
                 (fun c => le_bytes_length 2 _))
    by (first [lia|rewrite lookup_seq_lt by lia; reflexivity]).
Qed.

(** C10. The encoder clamps every sample to [-1, 1] and scales the negative
    ones by 0x8000 and the others by 0x7FFF, so that what [setInt16] is given
    lies in [-32768, 32767] and is stored without wrapping; the buffer of
    [44 + length * numChannels * 2] bytes it allocates is the 44 bytes of the
    header followed by two bytes for every sample of every channel, frame by
    frame, with no byte left over and no store out of range. *)
Theorem audioBufferToWav_fills_buffer (audioBuffer : AudioBuffer.t) :
  let numChannels := AudioBuffer.numberOfChannels audioBuffer in
  let frames := AudioBuffer.length audioBuffer in
  exists bytes,
    audioBufferToWav audioBuffer = Some bytes /\
    List.length bytes = (44 + frames * numChannels * 2)%nat /\
    bytes = wav_header (Z.of_nat numChannels)
                       (AudioBuffer.sampleRate audioBuffer) (Z.of_nat frames)
            ++ wav_data audioBuffer /\
    List.length (wav_data audioBuffer) = (frames * numChannels * 2)%nat /\
    (forall i channel,
        (i < frames)%nat -> (channel < numChannels)%nat ->
        let v := int16_of audioBuffer i channel in
        let offset := (44 + 2 * (i * numChannels + channel))%nat in
        bytes !! offset = Some (v mod 256)%Z /\
        bytes !! (offset + 1)%nat = Some (v / 256 mod 256)%Z /\
        getInt16 (v mod 256) (v / 256 mod 256) = v /\
        (-32768 <= v <= 32767)%Z) /\
    (forall i channel x,
        getSample audioBuffer channel i = Some x ->
        -1 <= clamp x <= 1 /\
        (clamp x < 0 /\ scale (clamp x) = clamp x * 32768 \/
         0 <= clamp x /\ scale (clamp x) = clamp x * 32767) /\
        -32768 <= scale (clamp x) <= 32767 /\
        int16_of audioBuffer i channel = Qtruncate (scale (clamp x))) /\
    (AudioBuffer.wf audioBuffer ->
     forall i channel,
       (i < frames)%nat -> (channel < numChannels)%nat ->
       is_Some (getSample audioBuffer channel i)).
Proof.
  intros numChannels frames. subst numChannels frames.
  eexists. split; [apply audioBufferToWav_bytes|].
  assert (Hdata : List.length (wav_data audioBuffer)
                  = (AudioBuffer.length audioBuffer
                     * AudioBuffer.numberOfChannels audioBuffer * 2)%nat).
  { unfold wav_data.
    rewrite (flat_map_length_chunks _ _ _ (frame_bytes_length audioBuffer)).
    rewrite length_seq. lia. }
  split; [rewrite length_app, wav_header_length, Hdata; reflexivity|].
  split; [reflexivity|]. split; [exact Hdata|]. split; [|split].
  - intros i channel Hi Hc v offset.
    pose proof (int16_of_range audioBuffer i channel) as Hv. fold v in Hv.
    destruct (getInt16_le_bytes v Hv) as [Hbytes Hget].
    split; [|split; [|split; [exact Hget|exact Hv]]].
    + replace offset with (offset + 0)%nat by lia. subst offset.
      rewrite wav_sample_lookup by (assumption || lia).
      fold v. now rewrite Hbytes.
    + subst offset.
      rewrite wav_sample_lookup by (assumption || lia).
      fold v. now rewrite Hbytes.
  - intros i channel x Hx.
    pose proof (clamp_bounds x) as Hclamp.
    pose proof (scale_bounds _ Hclamp) as Hscale.
    split; [exact Hclamp|]. split; [apply scale_cases|].
    split; [exact Hscale|].
    unfold int16_of, pcm. rewrite Hx. simpl.
    apply ToInt16_in_range, Qtruncate_bounds, Hscale.
  - intros Hwf i channel Hi Hc. now apply getSample_wf.
Qed.

(** The file for the one-second buffer of the session: 44 bytes of header
    and four samples. *)
Example audioBufferToWav_example :
  audioBufferToWav Session.mix
  = Some [82; 73; 70; 70; 44; 0; 0; 0; 87; 65; 86; 69; 102; 109; 116; 32;
          16; 0; 0; 0; 1; 0; 1; 0; 4; 0; 0; 0; 8; 0; 0; 0; 2; 0; 16; 0;
          100; 97; 116; 97; 8; 0; 0; 0;
          0; 0; 255; 63; 0; 128; 255; 31]%Z.
Proof. reflexivity. Qed.

(** Samples outside [-1, 1] are stored as the extreme values. *)
Example audioBufferToWav_clamps :
  wav_data (AudioBuffer.mk 4 3 [[3; -7 # 2; 1]])
  = [255; 127; 0; 128; 255; 127]%Z.
Proof. reflexivity. Qed.

End WavEncoder.

(** * Further properties *)

(** ** Updates of the sentence list *)

Section SentenceUpdates.

Import Sentence.
Local Open Scope Q_scope.

Lemma spread_idempotent sentence updates :
  spread (spread sentence updates) updates = spread sentence updates.
Proof.
  destruct updates as [i st d o t a m r da mp ra rp]. unfold spread. simpl.
  f_equal;
    match goal with |- default (default _ ?u) ?u = _ => now destruct u end.
Qed.

Lemma spread_id_kept sentence updates :
  u_id updates = None -> id (spread sentence updates) = id sentence.
Proof. intros H. unfold spread. simpl. now rewrite H. Qed.

(** X1. Applying one update twice is applying it once: the updater handed to
    [setSentences] may be run again on its own result. *)
Theorem updateSentence_idempotent (sentenceId : Z) (updates : Updates)
    (prevSentences : list SentenceSegment) :
  updateSentence sentenceId updates
    (updateSentence sentenceId updates prevSentences)
  = updateSentence sentenceId updates prevSentences.
Proof.
  unfold updateSentence. rewrite List.map_map. apply List.map_ext.
  intros s. cbv beta. destruct (Z.eqb_spec (id s) sentenceId) as [Hs|Hs].
  - destruct (Z.eqb (id (spread s updates)) sentenceId);
      [apply spread_idempotent|reflexivity].
  - now rewrite (proj2 (Z.eqb_neq _ _) Hs).
Qed.

(** X2. Updates of two different sentences that leave the ids alone commute. *)
Theorem updateSentence_commute (id1 id2 : Z) (updates1 updates2 : Updates)
    (prevSentences : list SentenceSegment) :
  id1 <> id2 ->
  u_id updates1 = None ->
  u_id updates2 = None ->
  updateSentence id1 updates1 (updateSentence id2 updates2 prevSentences)
  = updateSentence id2 updates2 (updateSentence id1 updates1 prevSentences).
Proof.
  intros Hne H1 H2. unfold updateSentence. rewrite !List.map_map.
  apply List.map_ext. intros s. cbv beta.
  destruct (Z.eqb_spec (id s) id1) as [Hs1|Hs1];
    destruct (Z.eqb_spec (id s) id2) as [Hs2|Hs2];
    rewrite ?(spread_id_kept _ _ H1), ?(spread_id_kept _ _ H2);
    rewrite ?(proj2 (Z.eqb_eq _ _) Hs1), ?(proj2 (Z.eqb_eq _ _) Hs2),
      ?(proj2 (Z.eqb_neq _ _) Hs1), ?(proj2 (Z.eqb_neq _ _) Hs2);
    congruence.
Qed.

(** A new start time for the first sentence and a new duration for the
    second, in either order. *)
Lemma updateSentence_commute_witness :
  let l := [Session.s1; Session.s2] in
  let u1 := mkUpdates None (Some (1 # 2)) None None None None None None None
                      None None None in
  let u2 := mkUpdates None None (Some 4) None None None None None None None
                      None None in
  updateSentence 1 u1 (updateSentence 2 u2 l)
  = updateSentence 2 u2 (updateSentence 1 u1 l).
Proof.
  intros l u1 u2.
  apply (updateSentence_commute 1 2 u1 u2 l); [discriminate|reflexivity..].
Defined.

End SentenceUpdates.

(** ** Refinement and reordering *)

Section SentenceEditing.

Import Sentence Timeline.
Local Open Scope Q_scope.

Lemma updateSentence_lookup_Some sentenceId updates
    (sentences : list SentenceSegment) i sentence :
  sentences !! i = Some sentence ->
  updateSentence sentenceId updates sentences !! i
  = Some (if Z.eqb (id sentence) sentenceId
          then spread sentence updates else sentence).
Proof. intros Hi. now rewrite updateSentence_lookup, Hi. Qed.

(** The list [handleDialogueRefine] leaves, position by position. *)
Lemma handleDialogueRefine_lookup target refinedText outcome isoNow
    (sentences : list SentenceSegment) i sentence :
  sentences !! i = Some sentence ->
  handleDialogueRefine (Some target) refinedText outcome isoNow sentences !! i
  = Some (if Z.eqb (id sentence) (id target)
          then match outcome with
               | Reprocessed result =>
                   spread (spread sentence (text_update refinedText))
                          (audio_update refinedText result isoNow)
               | NotOk => spread sentence (text_update refinedText)
               | _ => spread (spread sentence (text_update refinedText))
                             (text_update refinedText)
               end
          else sentence).
Proof.
  intros Hi. unfold handleDialogueRefine.
  pose proof (updateSentence_lookup_Some (id target) (text_update refinedText)
                sentences i sentence Hi) as H1.
  destruct (Z.eqb (id sentence) (id target)) eqn:Hid.
  - destruct outcome; try exact H1;
      rewrite (updateSentence_lookup_Some _ _ _ _ _ H1); simpl;
      now rewrite Hid.
  - destruct outcome; try exact H1;
      rewrite (updateSentence_lookup_Some _ _ _ _ _ H1); now rewrite Hid.
Qed.

(** X3. Whatever the request comes to, a refinement keeps the number and the
    order of the sentences, and the id, the timing and the original text of
    each; a sentence whose id is not the target's is left as it was. *)
Theorem handleDialogueRefine_frame
    (refiningSentence : option SentenceSegment) (refinedText : string)
    (outcome : ReprocessOutcome) (isoNow : string)
    (sentences : list SentenceSegment) :
  let sentences' :=
    handleDialogueRefine refiningSentence refinedText outcome isoNow
                         sentences in
  List.length sentences' = List.length sentences /\
  (forall i sentence,
      sentences !! i = Some sentence ->
      exists sentence',
        sentences' !! i = Some sentence' /\
        id sentence' = id sentence /\
        startTime sentence' = startTime sentence /\
        duration sentence' = duration sentence /\
        originalText sentence' = originalText sentence /\
        (forall target,
            refiningSentence = Some target -> id sentence <> id target ->
            sentence' = sentence)) /\
  (refiningSentence = None -> sentences' = sentences).
Proof.
  cbv zeta. destruct refiningSentence as [target|].
  - split; [|split; [|discriminate]].
    + unfold handleDialogueRefine, updateSentence.
      destruct outcome; now rewrite ?List.length_map.
    + intros i s Hi. eexists.
      split; [apply handleDialogueRefine_lookup, Hi|].
      destruct (Z.eqb_spec (id s) (id target)) as [Heq|Hne].
      * destruct outcome; do 4 (split; [reflexivity|]);
          intros ? [= <-] Hne; congruence.
      * do 4 (split; [reflexivity|]). reflexivity.
  - split; [reflexivity|]. split; [|reflexivity].
    intros i s Hi. exists s. split; [exact Hi|].
    do 4 (split; [reflexivity|]). discriminate.
Qed.

(** X4. When the audio is reprocessed, the target takes the refined text and the
    URLs of the response: [sentenceAudioUrl || audioUrl] and
    [modifiedAudioUrl] as they come, so that a response that carries none
    leaves the target without the URLs it had. *)
Theorem handleDialogueRefine_attaches (target : SentenceSegment)
    (refinedText : string) (result : ReprocessResult) (isoNow : string)
    (sentences : list SentenceSegment) (i : nat) (sentence : SentenceSegment) :
  sentences !! i = Some sentence ->
  id sentence = id target ->
  exists sentence',
    handleDialogueRefine (Some target) refinedText (Reprocessed result) isoNow
                         sentences !! i = Some sentence' /\
    translatedText sentence' = refinedText /\
    isRefined sentence' = true /\
    audioUrl sentence' = js_or (sentenceAudioUrl result) (r_audioUrl result) /\
    modifiedAudioUrl sentence' = r_modifiedAudioUrl result /\
    dubbedAudio sentence' = js_or (sentenceAudioPath result) (audioPath result)
    /\ modifiedAudioPath sentence' = r_modifiedAudioPath result /\
    refinedAt sentence' = Some isoNow /\
    (sentenceAudioUrl result = None -> r_audioUrl result = None ->
     audioUrl sentence' = None).
Proof.
  intros Hi Hid. eexists.
  split; [apply handleDialogueRefine_lookup, Hi|].
  rewrite (proj2 (Z.eqb_eq _ _) Hid). simpl.
  repeat split. now intros -> ->.
Qed.

(** A response without URLs for a sentence that had both. *)
Lemma handleDialogueRefine_attaches_witness :
  exists sentence',
    handleDialogueRefine (Some Session.s1) "hello there"
      (Reprocessed (mkResult None None None None None None))
      "2025-01-01T00:00:00.000Z" [Session.s1; Session.s2] !! 0%nat
    = Some sentence' /\
    translatedText sentence' = "hello there" /\
    isRefined sentence' = true /\
    audioUrl sentence' = js_or None None /\
    modifiedAudioUrl sentence' = None /\
    dubbedAudio sentence' = js_or None None /\
    modifiedAudioPath sentence' = None /\
    refinedAt sentence' = Some "2025-01-01T00:00:00.000Z" /\
    (@None string = None -> @None string = None -> audioUrl sentence' = None).
Proof.
  apply (handleDialogueRefine_attaches Session.s1 "hello there"
           (mkResult None None None None None None)
           "2025-01-01T00:00:00.000Z" [Session.s1; Session.s2] 0 Session.s1);
    reflexivity.
Defined.

Lemma clampedIndex_range (sentences : list SentenceSegment) index pointX :
  (index < List.length sentences)%nat ->
  (0 <= clampedIndex sentences index pointX
   <= Z.of_nat (List.length sentences) - 1)%Z.
Proof. unfold clampedIndex. lia. Qed.

Lemma splice_in_out {A : Type} (l : list A) (index target : nat) (x : A) :
  l !! index = Some x ->
  (target < List.length l)%nat ->
  let l' := splice_in target x (splice_out index l).2 in
  l' ≡ₚ l /\ l' !! target = Some x /\ delete target l' = delete index l.
Proof.
  intros Hx Ht. unfold splice_in, splice_out. cbn [snd].
  rewrite <- delete_take_drop.
  assert (Hlen : (target <= List.length (delete index l))%nat).
  { rewrite length_delete by eauto. lia. }
  pose proof (length_take_le _ _ Hlen) as Htake.
  split; [|split].
  - rewrite <- Permutation_middle, take_drop.
    symmetry. now apply delete_Permutation.
  - rewrite <- Htake at 1. apply list_lookup_middle. reflexivity.
  - rewrite <- Htake at 1. rewrite delete_middle. apply take_drop.
Qed.

(** X5. The drag of a block ends in a call of [onSentenceReorder] exactly when
    the block is dropped on another slot of the list.  The list handed over
    is then a permutation of the sentences: the dragged one sits at the slot
    it was dropped on, and the others keep their order. *)
Theorem onDragEnd_reorders (sentences : list SentenceSegment) (index : nat)
    (pointX : Q) :
  (index < List.length sentences)%nat ->
  match onDragEnd sentences index pointX with
  | Some newOrder =>
      exists target : nat,
        Z.of_nat target = clampedIndex sentences index pointX /\
        target <> index /\
        (target < List.length sentences)%nat /\
        newOrder ≡ₚ sentences /\
        newOrder !! target = sentences !! index /\
        delete target newOrder = delete index sentences
  | None => clampedIndex sentences index pointX = Z.of_nat index
  end.
Proof.
  intros Hindex. unfold onDragEnd.
  pose proof (clampedIndex_range sentences index pointX Hindex) as Hrange.
  destruct (Z.eqb_spec (clampedIndex sentences index pointX) (Z.of_nat index))
    as [Heq|Hne]; [exact Heq|].
  destruct (lookup_lt_is_Some_2 _ _ Hindex) as [x Hx].
  unfold splice_out at 1. rewrite Hx.
  exists (Z.to_nat (clampedIndex sentences index pointX)).
  split; [lia|]. split; [lia|]. split; [lia|].
  apply (splice_in_out sentences index
           (Z.to_nat (clampedIndex sentences index pointX)) x Hx).
  lia.
Qed.

(** The first of three blocks dragged 390 pixels to the right lands on the
    last slot. *)
Lemma onDragEnd_reorders_witness :
  let s3 := mkSentence 3 5 1 "alvida" "bye" None None false None None None
                       None in
  match onDragEnd [Session.s1; Session.s2; s3] 0 390 with
  | Some newOrder =>
      exists target : nat,
        Z.of_nat target = clampedIndex [Session.s1; Session.s2; s3] 0 390 /\
        target <> 0%nat /\
        (target < 3)%nat /\
        newOrder ≡ₚ [Session.s1; Session.s2; s3] /\
        newOrder !! target = Some Session.s1 /\
        delete target newOrder = [Session.s2; s3]
  | None => clampedIndex [Session.s1; Session.s2; s3] 0 390 = 0%Z
  end.
Proof.
  intros s3.
  apply (onDragEnd_reorders [Session.s1; Session.s2; s3] 0 390).
  simpl. lia.
Defined.

(** Where the blocks of that drag end up. *)
Example onDragEnd_example :
  let s3 := mkSentence 3 5 1 "alvida" "bye" None None false None None None
                       None in
  onDragEnd [Session.s1; Session.s2; s3] 0 390
    = Some [Session.s2; s3; Session.s1] /\
  onDragEnd [Session.s1; Session.s2; s3] 0 90 = None /\
  onDragEnd [Session.s1; Session.s2; s3] 2 (-1000)
    = Some [s3; Session.s1; Session.s2] /\
  onDragEnd [Session.s1; Session.s2; s3] 1 100
    = Some [Session.s1; s3; Session.s2].
Proof. repeat split. Qed.

End SentenceEditing.

(** ** Runs of the editor *)

Section EngineRuns.

Import Engine Run.
Local Open Scope Q_scope.

(** *** One source at a time *)

Lemma tracked_same e e' :
  playing e' = playing e -> sourceNodeRef e' = sourceNodeRef e ->
  tracked e -> tracked e'.
Proof. unfold tracked. now intros -> ->. Qed.

Lemma playAudio_tracked r e : tracked e -> tracked (playAudio r e).
Proof.
  intros Htr.
  destruct (audioContextRef e) as [c|] eqn:Hc;
    [|unfold playAudio; now rewrite Hc].
  destruct (audioBufferRef e) as [b|] eqn:Hb;
    [|unfold playAudio; now rewrite Hc, Hb].
  destruct (playAudio_single_source r e b Htr (ex_intro _ c Hc) Hb)
    as (src & Hp & Hr & _).
  now apply tracked_one_source with src.
Qed.

Lemma updatePlaybackTime_tracked r e :
  tracked e -> tracked (updatePlaybackTime r e).
Proof.
  destruct (updatePlaybackTime_refs r e) as (Hc & Hn & _).
  apply tracked_same; [unfold playing; now rewrite Hc|exact Hn].
Qed.

Lemma loadAudioBuffer_tracked env audioFile e :
  tracked e -> tracked (loadAudioBuffer env audioFile e).
Proof.
  apply tracked_same; unfold loadAudioBuffer, playing;
    destruct (audioContextRef e) eqn:Hc; try reflexivity;
    destruct (decodeAudioData env audioFile); simpl; now rewrite ?Hc.
Qed.

Lemma clearBuffer_silent r e : tracked e -> playing (clearBuffer r e) = [].
Proof. intros Htr. unfold clearBuffer. fold (quiet r e). now apply quiet_silent. Qed.

Lemma loadCompleteAudio_tracked r props env now e :
  tracked e -> tracked (loadCompleteAudio r props env now e).1.
Proof.
  intros Htr. unfold loadCompleteAudio.
  destruct (List.find _ _); cbn [fst].
  - now apply tracked_silent, loadAudioFromUrl_silent.
  - destruct (processedAudio props); cbn [fst];
      [now apply loadAudioBuffer_tracked|exact Htr].
Qed.

Lemma sourceEnded_tracked n e : tracked e -> tracked (sourceEnded n e).
Proof.
  intros [Hlen Href]. unfold sourceEnded.
  destruct (List.find _ (playing e)) as [src|]; [|now split].
  assert (Hsub : forall s,
             In s (playing (set_audioContextRef (stop n <$> audioContextRef e) e))
             -> In s (playing e)).
  { unfold playing. simpl. destruct (audioContextRef e); simpl; [|tauto].
    intros s Hs. now apply filter_In in Hs. }
  assert (Hle : (List.length
                   (playing (set_audioContextRef (stop n <$> audioContextRef e) e))
                 <= 1)%nat).
  { unfold playing in *. simpl. destruct (audioContextRef e); simpl; [|lia].
    etransitivity; [apply List.filter_length_le|exact Hlen]. }
  destruct (src_onended src); simpl; split; try exact Hle;
    intros s Hs; apply Href, Hsub, Hs.
Qed.

Lemma setCurrentTime_tracked t e : tracked e -> tracked (setCurrentTime t e).
Proof. now apply tracked_same. Qed.

Lemma setTimeout_tracked t e : tracked e -> tracked (setTimeout t e).
Proof. now apply tracked_same. Qed.

Lemma step_tracked a e : tracked e -> tracked (step a e).
Proof.
  intros Htr. destruct a; unfold step.
  - unfold playPauseButton. destruct (isPlaying (state e));
      [now apply pauseAudio_tracked|now apply playAudio_tracked].
  - unfold handleSeek. destruct (Qeq_bool _ _); [exact Htr|].
    destruct (isPlaying (state e)).
    + now apply setTimeout_tracked, pauseAudio_tracked, setCurrentTime_tracked.
    + now apply setCurrentTime_tracked.
  - unfold markerClick. destruct (isPlaying (state e)).
    + now apply setTimeout_tracked, pauseAudio_tracked, setCurrentTime_tracked.
    + now apply setCurrentTime_tracked.
  - revert Htr. now apply tracked_same.
  - revert Htr. now apply tracked_same.
  - unfold fire_frame. destruct (frames e) as [|[n r] fs]; [exact Htr|].
    apply updatePlaybackTime_tracked. revert Htr. now apply tracked_same.
  - unfold fire_timer. destruct (timers e) as [|t ts]; [exact Htr|].
    apply playAudio_tracked. revert Htr. now apply tracked_same.
  - now apply sourceEnded_tracked.
  - revert Htr. apply tracked_same; [|reflexivity].
    unfold elapse, playing. simpl. now destruct (audioContextRef e).
  - now apply loadAudioBuffer_tracked.
  - unfold sentencesEffect.
    destruct (sentences props); [exact Htr|].
    destruct (audioContextRef e); [|exact Htr].
    destruct (audioBufferRef e); [exact Htr|].
    destruct (List.find _ _); [|exact Htr].
    now apply tracked_silent, loadAudioFromUrl_silent.
  - unfold loadModifiedFullAudio. destruct (List.find _ _); [|exact Htr].
    now apply tracked_silent, loadAudioFromUrl_silent.
  - unfold playModifiedFullAudio.
    destruct (hasModifiedAudioUrl sentence); [|exact Htr].
    now apply playAudio_tracked, tracked_silent, loadAudioFromUrl_silent.
  - now apply loadCompleteAudio_tracked.
  - unfold forceLoadCompleteAudio.
    now apply loadCompleteAudio_tracked, tracked_silent, clearBuffer_silent.
  - unfold loadExportedAudio. cbn [fst].
    apply tracked_silent, loadAudioFromUrl_silent.
    now apply tracked_silent, clearBuffer_silent.
Qed.

Lemma run_app actions1 actions2 e :
  run (actions1 ++ actions2) e = run actions2 (run actions1 e).
Proof. unfold run. apply fold_left_app. Qed.

Lemma run_invariant (P : Editor -> Prop) :
  (forall a e, P e -> P (step a e)) ->
  forall actions e, P e -> P (run actions e).
Proof.
  intros Hstep actions. induction actions as [|a actions IH]; intros e He;
    [exact He|].
  simpl. apply IH, Hstep, He.
Qed.

(** X6. From the mounted component on, whatever the play button, the progress
    bar, the markers, the volume controls, the frames, the timers, the end
    of a source and the loads do, in any order, the context plays at most
    one source, and it is the one [sourceNodeRef] points to. *)
Theorem run_single_source (actions : list Action) (clock : Q)
    (suspended : bool) (created : nat) :
  let e :=
    run actions (mount (Some (mkContext clock suspended created []))) in
  (List.length (playing e) <= 1)%nat /\
  (forall source,
      In source (playing e) -> sourceNodeRef e = Some (src_id source)).
Proof.
  cbv zeta. apply (run_invariant tracked step_tracked).
  apply tracked_silent. reflexivity.
Qed.

(** *** The buffer and the duration *)

Lemma consistent_same e e' :
  audioBufferRef e' = audioBufferRef e ->
  duration (state e') = duration (state e) ->
  consistent e -> consistent e'.
Proof. unfold consistent. now intros -> ->. Qed.

Lemma updatePlaybackTime_duration r e :
  duration (state (updatePlaybackTime r e)) = duration (state e).
Proof.
  unfold updatePlaybackTime.
  destruct (isPlaying r); [|reflexivity].
  destruct (audioContextRef e); [|reflexivity].
  now destruct (Qle_bool _ _).
Qed.

Lemma playAudio_buffer_duration r e :
  audioBufferRef (playAudio r e) = audioBufferRef e /\
  duration (state (playAudio r e)) = duration (state e).
Proof.
  unfold playAudio.
  destruct (audioContextRef e); [|now split].
  destruct (audioBufferRef e) eqn:Hb; [|now split].
  destruct (audioContextRef (stopSourceNode e));
    [|now rewrite stopSourceNode_buffer, stopSourceNode_state].
  unfold createBufferSource.
  match goal with
  | |- context [updatePlaybackTime r ?e'] =>
      destruct (updatePlaybackTime_refs r e') as (_ & _ & -> & _);
      rewrite (updatePlaybackTime_duration r e')
  end.
  simpl. now rewrite stopSourceNode_buffer, stopSourceNode_state.
Qed.

Lemma playAudio_consistent r e : consistent e -> consistent (playAudio r e).
Proof.
  destruct (playAudio_buffer_duration r e). now apply consistent_same.
Qed.

Lemma pauseAudio_consistent e : consistent e -> consistent (pauseAudio e).
Proof.
  apply consistent_same; [apply pauseAudio_buffer|now rewrite pauseAudio_state].
Qed.

Lemma quiet_consistent r e : consistent e -> consistent (quiet r e).
Proof.
  apply consistent_same; [apply quiet_buffer|apply quiet_state].
Qed.

Lemma loadAudioFromUrl_consistent r env audioUrl audioType e :
  consistent e -> consistent (loadAudioFromUrl r env audioUrl audioType e).
Proof.
  intros H. apply (quiet_consistent r) in H.
  unfold loadAudioFromUrl. fold (quiet r e).
  destruct (fetch env audioUrl) as [|status body]; [exact H|].
  destruct (ok status); [|exact H].
  destruct (audioContextRef _); [|exact H].
  destruct (decodeAudioData env body); [reflexivity|exact H].
Qed.

Lemma loadAudioBuffer_consistent env audioFile e :
  consistent e -> consistent (loadAudioBuffer env audioFile e).
Proof.
  intros H. unfold loadAudioBuffer.
  destruct (audioContextRef e); [|exact H].
  destruct (decodeAudioData env audioFile); [reflexivity|exact H].
Qed.

Lemma loadCompleteAudio_consistent r props env now e :
  consistent e -> consistent (loadCompleteAudio r props env now e).1.
Proof.
  intros H. unfold loadCompleteAudio.
  destruct (List.find _ _); cbn [fst];
    [now apply loadAudioFromUrl_consistent|].
  destruct (processedAudio props); cbn [fst];
    [now apply loadAudioBuffer_consistent|exact H].
Qed.

Lemma clearBuffer_consistent r e : consistent (clearBuffer r e).
Proof. reflexivity. Qed.

Lemma step_consistent a e : consistent e -> consistent (step a e).
Proof.
  intros H. destruct a; unfold step.
  - unfold playPauseButton. destruct (isPlaying (state e));
      [now apply pauseAudio_consistent|now apply playAudio_consistent].
  - unfold handleSeek. destruct (Qeq_bool _ _); [exact H|].
    destruct (isPlaying (state e)); [|exact H].
    apply (consistent_same
             (pauseAudio (setCurrentTime
                            (Qmax 0 (Qmin 1 ((clientX ev - rect_left ev)
                                              / rect_width ev))
                             * duration (state e)) e)));
      [reflexivity..|]. now apply pauseAudio_consistent.
  - unfold markerClick. destruct (isPlaying (state e)); [|exact H].
    apply (consistent_same
             (pauseAudio (setCurrentTime (Sentence.startTime sentence) e)));
      [reflexivity..|]. now apply pauseAudio_consistent.
  - exact H.
  - exact H.
  - unfold fire_frame. destruct (frames e) as [|[n r] fs]; [exact H|].
    revert H. apply consistent_same;
      [|now rewrite updatePlaybackTime_duration].
    match goal with
    | |- context [updatePlaybackTime r ?e'] =>
        now destruct (updatePlaybackTime_refs r e') as (_ & _ & -> & _)
    end.
  - unfold fire_timer. destruct (timers e) as [|t ts]; [exact H|].
    now apply playAudio_consistent.
  - unfold sourceEnded. destruct (List.find _ _) as [src|]; [|exact H].
    now destruct (src_onended src).
  - exact H.
  - now apply loadAudioBuffer_consistent.
  - unfold sentencesEffect.
    destruct (sentences props); [exact H|].
    destruct (audioContextRef e); [|exact H].
    destruct (audioBufferRef e) eqn:Hb; [exact H|].
    destruct (List.find _ _); [|exact H].
    now apply loadAudioFromUrl_consistent.
  - unfold loadModifiedFullAudio. destruct (List.find _ _); [|exact H].
    now apply loadAudioFromUrl_consistent.
  - unfold playModifiedFullAudio.
    destruct (hasModifiedAudioUrl sentence); [|exact H].
    now apply playAudio_consistent, loadAudioFromUrl_consistent.
  - now apply loadCompleteAudio_consistent.
  - unfold forceLoadCompleteAudio.
    apply loadCompleteAudio_consistent, clearBuffer_consistent.
  - unfold loadExportedAudio. cbn [fst].
    apply loadAudioFromUrl_consistent, clearBuffer_consistent.
Qed.

(** X7. From the mounted component on, the [duration] the component holds is the
    duration of the buffer that is loaded, and 0 when none is. *)
Theorem run_duration_of_buffer (actions : list Action)
    (ctx : option AudioContext) :
  let e := run actions (mount ctx) in
  match audioBufferRef e with
  | Some audioBuffer => duration (state e) = AudioBuffer.duration audioBuffer
  | None => duration (state e) = 0
  end.
Proof.
  cbv zeta. apply (run_invariant consistent step_consistent). reflexivity.
Qed.

(** *** Offsets and positions *)

Lemma seek_position_nonneg x d : 0 <= d -> 0 <= Qmax 0 (Qmin 1 x) * d.
Proof.
  intros Hd. apply Qmult_le_0_compat; [apply percentage_bounds|exact Hd].
Qed.

Ltac qcbn :=
  cbn -[Qplus Qminus Qmult Qdiv Qmax Qmin Qle_bool Qeq_bool Qle Qlt Qopp Qinv]
    in *.

Lemma Forall_filter_keep {A : Type} (P : A -> Prop) (f : A -> bool)
    (l : list A) :
  Forall P l -> Forall P (List.filter f l).
Proof.
  intros H. apply Forall_forall. intros x Hx%list_elem_of_In%filter_In.
  rewrite Forall_forall in H. apply H, list_elem_of_In. tauto.
Qed.

Ltac wt_finish :=
  rewrite ?Forall_app, ?Forall_cons, ?Forall_nil in *; qcbn;
  repeat match goal with
    | H : _ /\ _ |- _ => destruct H
    | |- _ /\ _ => split
    end;
  eauto using Q.le_max_l, Qle_refl, Forall_filter_keep.

Ltac wt_crush :=
  unfold well_timed, playing in *; qcbn; intros;
  repeat (case_match; qcbn; simplify_eq /=);
  wt_finish.

Lemma stopSourceNode_well_timed e :
  well_timed e -> well_timed (stopSourceNode e).
Proof.
  destruct e as [s [c|] b n st f fs fr ts us];
    unfold stopSourceNode, set_sourceNodeRef, set_audioContextRef, stop;
    wt_crush.
Qed.

Lemma pauseAudio_well_timed e : well_timed e -> well_timed (pauseAudio e).
Proof.
  intros H%stopSourceNode_well_timed. revert H.
  unfold pauseAudio. generalize (stopSourceNode e). clear e. intros e.
  destruct e as [s c b n st f fs fr ts us];
    unfold cancelAnimationFrame, setIsPlaying, with_state; wt_crush.
Qed.

Lemma updatePlaybackTime_well_timed r e :
  well_timed e -> well_timed (updatePlaybackTime r e).
Proof.
  destruct e as [s c b n st f fs fr ts us];
    unfold updatePlaybackTime, requestAnimationFrame, setIsPlaying,
      setCurrentTime, with_state; wt_crush.
Qed.

Lemma playAudio_well_timed r e :
  0 <= currentTime r -> well_timed e -> well_timed (playAudio r e).
Proof.
  intros Hr H. unfold playAudio.
  destruct (audioContextRef e); [|exact H].
  destruct (audioBufferRef e); [|exact H].
  apply stopSourceNode_well_timed in H. revert H.
  generalize (stopSourceNode e). clear e. intros e H.
  destruct (audioContextRef e) as [c|] eqn:Hc; [|exact H].
  unfold createBufferSource.
  apply updatePlaybackTime_well_timed.
  destruct e as [s c' b n st f fs fr ts us]. qcbn. subst c'.
  destruct c as [clock suspended created sources].
  unfold setIsPlaying, set_audioContextRef, set_startTimeRef,
    set_sourceNodeRef, start, resume, with_state.
  destruct suspended; wt_crush.
Qed.

Lemma setCurrentTime_well_timed t e :
  0 <= t -> well_timed e -> well_timed (setCurrentTime t e).
Proof. unfold setCurrentTime, with_state. wt_crush. Qed.

Lemma setTimeout_well_timed t e :
  0 <= currentTime (timer_render t) ->
  well_timed e -> well_timed (setTimeout t e).
Proof. unfold setTimeout. wt_crush. Qed.

Lemma quiet_well_timed r e : well_timed e -> well_timed (quiet r e).
Proof.
  intros H. unfold quiet. apply stopSourceNode_well_timed.
  destruct (isPlaying r); [now apply pauseAudio_well_timed|exact H].
Qed.

Lemma install_well_timed audioBuffer audioType e :
  0 <= AudioBuffer.duration audioBuffer ->
  well_timed e -> well_timed (install audioBuffer audioType e).
Proof.
  unfold install, setCurrentTime, setCurrentAudioType, setDuration,
    set_audioBufferRef, with_state. wt_crush.
Qed.

Lemma loadAudioFromUrl_well_timed r env audioUrl audioType e :
  decodes_durations env ->
  well_timed e -> well_timed (loadAudioFromUrl r env audioUrl audioType e).
Proof.
  intros Henv H. apply (quiet_well_timed r) in H.
  unfold loadAudioFromUrl. fold (quiet r e).
  assert (Hreq : well_timed (request audioUrl (quiet r e))) by exact H.
  destruct (fetch env audioUrl) as [|status body]; [exact Hreq|].
  destruct (ok status); [|exact Hreq].
  destruct (audioContextRef _); [|exact Hreq].
  destruct (decodeAudioData env body) as [b|] eqn:Hb; [|exact Hreq].
  apply install_well_timed; [now apply (Henv body)|exact Hreq].
Qed.

Lemma loadAudioBuffer_well_timed env audioFile e :
  decodes_durations env ->
  well_timed e -> well_timed (loadAudioBuffer env audioFile e).
Proof.
  intros Henv H. unfold loadAudioBuffer.
  destruct (audioContextRef e) eqn:Hc; [|exact H].
  destruct (decodeAudioData env audioFile) as [b|] eqn:Hb; [|exact H].
  pose proof (Henv _ _ Hb) as Hd. revert H.
  unfold setCurrentTime, setDuration, set_audioBufferRef, with_state.
  wt_crush.
Qed.

Lemma clearBuffer_well_timed r e :
  well_timed e -> well_timed (clearBuffer r e).
Proof.
  intros H%(quiet_well_timed r). revert H.
  unfold clearBuffer. fold (quiet r e). generalize (quiet r e).
  unfold setCurrentTime, setDuration, set_audioBufferRef, with_state.
  wt_crush.
Qed.

Lemma loadCompleteAudio_well_timed r props env now e :
  decodes_durations env ->
  well_timed e -> well_timed (loadCompleteAudio r props env now e).1.
Proof.
  intros Henv H. unfold loadCompleteAudio.
  destruct (List.find _ _); cbn [fst];
    [now apply loadAudioFromUrl_well_timed|].
  destruct (processedAudio props); cbn [fst];
    [now apply loadAudioBuffer_well_timed|exact H].
Qed.

Lemma sourceEnded_well_timed n e :
  well_timed e -> well_timed (sourceEnded n e).
Proof.
  unfold sourceEnded. destruct (List.find _ _) as [src|]; [|tauto].
  destruct e as [s [c|] b m st f fs fr ts us];
    unfold onended, setCurrentTime, setIsPlaying, set_audioContextRef, stop,
      with_state; wt_crush.
Qed.

Lemma step_well_timed a e :
  admissible a -> well_timed e -> well_timed (step a e).
Proof.
  intros Ha H. destruct a; unfold step; cbn [admissible] in Ha.
  - unfold playPauseButton. destruct (isPlaying (state e));
      [now apply pauseAudio_well_timed|].
    apply playAudio_well_timed; [apply H|exact H].
  - unfold handleSeek. destruct (Qeq_bool _ _); [exact H|].
    assert (Ht : 0 <= Qmax 0 (Qmin 1 ((clientX ev - rect_left ev)
                                       / rect_width ev))
                      * duration (state e))
      by (apply seek_position_nonneg, H).
    destruct (isPlaying (state e)).
    + apply setTimeout_well_timed; [apply H|].
      now apply pauseAudio_well_timed, setCurrentTime_well_timed.
    + now apply setCurrentTime_well_timed.
  - unfold markerClick. destruct (isPlaying (state e)).
    + apply setTimeout_well_timed; [apply H|].
      now apply pauseAudio_well_timed, setCurrentTime_well_timed.
    + now apply setCurrentTime_well_timed.
  - exact H.
  - exact H.
  - unfold fire_frame. destruct (frames e) as [|[n r] fs]; [exact H|].
    apply updatePlaybackTime_well_timed. exact H.
  - unfold fire_timer. destruct (timers e) as [|t ts] eqn:Hts; [exact H|].
    destruct H as (Ht & Hd & Htimers & Hsrc). rewrite Hts in Htimers.
    apply Forall_cons in Htimers as [Hrender Htimers].
    apply playAudio_well_timed; [exact Hrender|].
    now repeat split.
  - now apply sourceEnded_well_timed.
  - revert H. unfold elapse, well_timed, playing. simpl.
    now destruct (audioContextRef e).
  - now apply loadAudioBuffer_well_timed.
  - unfold sentencesEffect.
    destruct (sentences props); [exact H|].
    destruct (audioContextRef e); [|exact H].
    destruct (audioBufferRef e); [exact H|].
    destruct (List.find _ _); [|exact H].
    now apply loadAudioFromUrl_well_timed.
  - unfold loadModifiedFullAudio. destruct (List.find _ _); [|exact H].
    now apply loadAudioFromUrl_well_timed.
  - unfold playModifiedFullAudio.
    destruct (hasModifiedAudioUrl sentence); [|exact H].
    apply playAudio_well_timed; [apply H|].
    now apply loadAudioFromUrl_well_timed.
  - now apply loadCompleteAudio_well_timed.
  - unfold forceLoadCompleteAudio.
    now apply loadCompleteAudio_well_timed, clearBuffer_well_timed.
  - unfold loadExportedAudio. cbn [fst].
    now apply loadAudioFromUrl_well_timed, clearBuffer_well_timed.
Qed.

Lemma run_admissible_invariant (P : Editor -> Prop) :
  (forall a e, admissible a -> P e -> P (step a e)) ->
  forall actions e, Forall admissible actions -> P e -> P (run actions e).
Proof.
  intros Hstep actions.
  induction actions as [|a actions IH]; intros e Hadm He; [exact He|].
  apply Forall_cons in Hadm as [Ha Hadm].
  simpl. apply IH; [exact Hadm|]. now apply Hstep.
Qed.

(** X8. From the mounted component on, as long as the sentences whose markers
    are clicked do not start before 0 and the decoded buffers have a
    duration, the position is never negative and every source is started at
    an offset that is not negative: [source.start] is never given an offset
    it rejects. *)
Theorem run_offsets_not_negative (actions : list Action)
    (ctx : option AudioContext) :
  (forall c, ctx = Some c -> ctx_playing c = []) ->
  Forall admissible actions ->
  let e := run actions (mount ctx) in
  0 <= currentTime (state e) /\
  0 <= duration (state e) /\
  Forall (fun source => 0 <= src_offset source) (playing e).
Proof.
  intros Hctx Hadm. cbv zeta.
  assert (H : well_timed (run actions (mount ctx))).
  { apply (run_admissible_invariant well_timed step_well_timed);
      [exact Hadm|].
    unfold well_timed, playing, mount. simpl.
    repeat split; try apply Qle_refl; try constructor.
    destruct ctx as [c|]; [rewrite (Hctx c eq_refl)|]; constructor. }
  destruct H as (Ht & Hd & _ & Hsrc). now repeat split.
Qed.

(** The full mix is loaded and played, the clock moves on, the bar is
    clicked in the middle, the restart timer fires and a frame runs. *)
Lemma run_offsets_not_negative_witness :
  let env := mkEnv (fun _ => Response 200 []) (fun _ => Some Session.mix) in
  let actions :=
    [LoadModified Session.props env 1700000000000; ClickPlayPause;
     Elapse (1 # 4); Seek (mkMouseEvent 200 100 200); TimerFires;
     Elapse (1 # 4); Frame] in
  let e := run actions (mount (Some (mkContext 0 false 0 []))) in
  0 <= currentTime (state e) /\
  0 <= duration (state e) /\
  Forall (fun source => 0 <= src_offset source) (playing e).
Proof.
  intros env actions.
  apply (run_offsets_not_negative actions (Some (mkContext 0 false 0 []))).
  - intros c [= <-]. reflexivity.
  - repeat constructor; intros bytes b [= <-]; discriminate.
Defined.

(** Where that run ends: the source restarted by the timer plays from the
    position the render of the click held, a quarter of a second later the
    frame puts the position there. *)
Example run_example :
  let env := mkEnv (fun _ => Response 200 []) (fun _ => Some Session.mix) in
  let e :=
    run [LoadModified Session.props env 1700000000000; ClickPlayPause;
         Elapse (1 # 4); Seek (mkMouseEvent 200 100 200); TimerFires;
         Elapse (1 # 4); Frame]
        (mount (Some (mkContext 0 false 0 []))) in
  src_id <$> playing e = [1%nat] /\
  src_offset <$> playing e = [0] /\
  currentTime (state e) == 1 # 4 /\
  isPlaying (state e) = true /\
  currentAudioType (state e) = modified.
Proof. repeat split. Qed.

(** *** Loads, volume and the playback clock *)





(** A click on the play button while the load waits is not undone by the
    assignments at its end: the clip is the loaded buffer, and the source
    the click started goes on playing the full mix. *)
Example load_interrupted_by_play :
  let e := playAudio (state Session.loaded) Session.loaded in
  let begun :=
    Loop.task (Loop.loadAudioFromUrl_begin (state e)
                                           "/api/download/s1.wav?t=1")
              (Loop.mkPage e []) in
  let clicked := Loop.run [Loop.Ended; Loop.Act ClickPlayPause] begun in
  let e' :=
    Loop.editor
      (Loop.task (Loop.loadAudioFromUrl_resume Session.online
                    "/api/download/s1.wav?t=1" individual)
                 clicked) in
  playing (Loop.editor begun) = [] /\
  audioBufferRef e' = Some Session.clip /\
  duration (state e') = AudioBuffer.duration Session.clip /\
  isPlaying (state e') = true /\
  src_buffer <$> playing e' = [Session.mix].
Proof. vm_compute. repeat split. Qed.

Lemma playAudio_source r e audioBuffer :
  tracked e ->
  is_Some (audioContextRef e) ->
  audioBufferRef e = Some audioBuffer ->
  exists n,
    playing (playAudio r e)
    = [mkSource n audioBuffer (if isMuted r then 0 else volume r)
                (currentTime r) ResetPlayback].
Proof.
  intros Htr Hctx Hbuf.
  pose proof (stopSourceNode_silent e Htr) as Hsilent.
  pose proof (stopSourceNode_context e Hctx) as [c1 Hc1].
  destruct Hctx as [c Hc].
  unfold playAudio. rewrite Hc, Hbuf, Hc1.
  unfold playing in Hsilent. rewrite Hc1 in Hsilent.
  unfold createBufferSource.
  match goal with
  | |- context [updatePlaybackTime r ?e'] =>
      destruct (updatePlaybackTime_refs r e') as (Hu1 & _)
  end.
  unfold playing. rewrite Hu1. simpl.
  destruct (ctx_suspended c1); simpl; rewrite Hsilent; eexists; reflexivity.
Qed.

(** X10. The volume controls take effect when a source is started and not
    before.  After the slider is set to a volume, the source the next
    [playAudio] starts has that volume as its gain; after the mute button is
    clicked on a component that is not muted, gain 0; the stored volume is
    the one before the click, and a second click gives the component
    back.  Neither control touches the gain of a source that plays. *)
Theorem volume_applies_at_start (e : Editor) (newVolume : Q)
    (audioBuffer : AudioBuffer.t) :
  tracked e ->
  is_Some (audioContextRef e) ->
  audioBufferRef e = Some audioBuffer ->
  let slid := handleVolumeChange newVolume e in
  let toggled := toggleMute (state e) e in
  (exists source,
      playing (playAudio (state slid) slid) = [source] /\
      src_gain source == newVolume) /\
  (isMuted (state e) = false ->
   exists source,
     playing (playAudio (state toggled) toggled) = [source] /\
     src_gain source = 0) /\
  volume (state toggled) = volume (state e) /\
  toggleMute (state toggled) toggled = e /\
  playing slid = playing e /\
  playing toggled = playing e.
Proof.
  intros Htr Hctx Hbuf slid toggled.
  assert (Hslid : tracked slid) by (revert Htr; now apply tracked_same).
  assert (Htog : tracked toggled) by (revert Htr; now apply tracked_same).
  split; [|split; [|split; [|split; [|split]]]].
  - destruct (playAudio_source (state slid) slid audioBuffer Hslid Hctx Hbuf)
      as [n Hn].
    eexists. split; [exact Hn|]. simpl.
    destruct (Qeq_bool newVolume 0) eqn:Hz; [|reflexivity].
    apply Qeq_bool_iff in Hz. now rewrite Hz.
  - intros Hm.
    destruct (playAudio_source (state toggled) toggled audioBuffer Htog Hctx
                               Hbuf) as [n Hn].
    eexists. split; [exact Hn|]. simpl. now rewrite Hm.
  - reflexivity.
  - destruct e as [[? ? ? ? m ?] ? ? ? ? ? ? ? ? ?]. unfold toggled.
    unfold toggleMute, setIsMuted, with_state. simpl.
    now rewrite negb_involutive.
  - reflexivity.
  - reflexivity.
Qed.

(** The slider of the session is set to 3/10. *)
Lemma volume_applies_at_start_witness :
  let e := Session.loaded in
  let slid := handleVolumeChange (3 # 10) e in
  let toggled := toggleMute (state e) e in
  (exists source,
      playing (playAudio (state slid) slid) = [source] /\
      src_gain source == 3 # 10) /\
  (isMuted (state e) = false ->
   exists source,
     playing (playAudio (state toggled) toggled) = [source] /\
     src_gain source = 0) /\
  volume (state toggled) = volume (state e) /\
  toggleMute (state toggled) toggled = e /\
  playing slid = playing e /\
  playing toggled = playing e.
Proof.
  intros e.
  apply (volume_applies_at_start e (3 # 10) Session.mix).
  - apply tracked_silent. reflexivity.
  - eexists. reflexivity.
  - reflexivity.
Defined.







End EngineRuns.

(** ** The WAV file read back *)

Section WavRoundTrip.

Import Wav WavRead.

Lemma from_le_le_bytes n value :
  from_le (le_bytes n value) = (value mod 256 ^ Z.of_nat n)%Z.
Proof.
  revert value. induction n as [|n IH]; intros value.
  - simpl. now rewrite Z.mod_1_r.
  - cbn [le_bytes from_le]. rewrite IH.
    rewrite Nat2Z.inj_succ, Z.pow_succ_r by lia.
    rewrite Z.rem_mul_r by lia. lia.
Qed.

Lemma getUint_field n (before after : list Z) value byteOffset :
  byteOffset = List.length before ->
  getUint n (before ++ le_bytes n value ++ after) byteOffset
  = Some (value mod 256 ^ Z.of_nat n)%Z.
Proof.
  intros ->. unfold getUint.
  rewrite drop_app_length.
  rewrite take_app_length' by (now rewrite le_bytes_length).
  rewrite decide_True by apply le_bytes_length.
  now rewrite from_le_le_bytes.
Qed.

Lemma getUint_skip n (l1 l2 : list Z) byteOffset :
  (List.length l1 <=? byteOffset)%nat = true ->
  getUint n (l1 ++ l2) byteOffset
  = getUint n l2 (byteOffset - List.length l1).
Proof.
  intros H%Nat.leb_le. unfold getUint. now rewrite drop_app_ge by exact H.
Qed.

Lemma getUint_here n value (after : list Z) byteOffset :
  byteOffset = 0%nat ->
  getUint n (le_bytes n value ++ after) byteOffset
  = Some (value mod 256 ^ Z.of_nat n)%Z.
Proof. intros ->. now apply (getUint_field n [] after value 0). Qed.

Ltac read_field :=
  repeat (rewrite getUint_skip by reflexivity);
  rewrite getUint_here by reflexivity.

(** X12. The header read back.  For a buffer whose channel count, sample rate,
    byte rate and size fit their fields, the file starts with the RIFF, WAVE,
    fmt and data tags; the format is PCM with 16 bits a sample; the channel
    count and the sample rate are those of the buffer; the two size fields
    are the length of the file less 8 and less 44; and the data chunk holds
    [frames * numChannels * 2] bytes, so that the number of frames can be
    told from it. *)
Theorem wav_header_reads_back (audioBuffer : AudioBuffer.t) (bytes : list Z) :
  let numChannels := Z.of_nat (AudioBuffer.numberOfChannels audioBuffer) in
  let sampleRate := AudioBuffer.sampleRate audioBuffer in
  let frames := Z.of_nat (AudioBuffer.length audioBuffer) in
  audioBufferToWav audioBuffer = Some bytes ->
  (numChannels < 32768)%Z ->
  (0 <= sampleRate < 2 ^ 32)%Z ->
  (sampleRate * numChannels * 2 < 2 ^ 32)%Z ->
  (36 + frames * numChannels * 2 < 2 ^ 32)%Z ->
  take 4 bytes = codes "RIFF" /\
  getUint32 bytes 4 = Some (Z.of_nat (List.length bytes) - 8)%Z /\
  take 8 (drop 8 bytes) = codes "WAVEfmt " /\
  getUint32 bytes 16 = Some 16%Z /\
  getUint16 bytes 20 = Some 1%Z /\
  getUint16 bytes 22 = Some numChannels /\
  getUint32 bytes 24 = Some sampleRate /\
  getUint32 bytes 28 = Some (sampleRate * numChannels * 2)%Z /\
  getUint16 bytes 32 = Some (numChannels * 2)%Z /\
  getUint16 bytes 34 = Some 16%Z /\
  take 4 (drop 36 bytes) = codes "data" /\
  getUint32 bytes 40 = Some (Z.of_nat (List.length bytes) - 44)%Z /\
  (Z.of_nat (List.length bytes) - 44 = frames * (numChannels * 2))%Z.
Proof.
  intros numChannels sampleRate frames Hwav Hnc Hsr Hrate Hsize.
  assert (Hbytes : bytes
                   = wav_header numChannels sampleRate frames
                     ++ wav_data audioBuffer)
    by (rewrite audioBufferToWav_bytes in Hwav;
        exact (eq_sym (f_equal (default []) Hwav))).
  clear Hwav. subst bytes numChannels sampleRate frames.
  set (numChannels := Z.of_nat (AudioBuffer.numberOfChannels audioBuffer))
    in *.
  set (sampleRate := AudioBuffer.sampleRate audioBuffer) in *.
  set (frames := Z.of_nat (AudioBuffer.length audioBuffer)) in *.
  assert (Hlen : (Z.of_nat (List.length
                    (wav_header numChannels sampleRate frames
                     ++ wav_data audioBuffer))
                  = 44 + frames * numChannels * 2)%Z).
  { rewrite length_app, wav_header_length.
    unfold wav_data.
    rewrite (flat_map_length_chunks _ _ _ (frame_bytes_length audioBuffer)).
    rewrite length_seq. unfold frames, numChannels. lia. }
  rewrite Hlen.
  assert (Hnc0 : (0 <= numChannels)%Z) by (unfold numChannels; lia).
  assert (Hf0 : (0 <= frames)%Z) by (unfold frames; lia).
  clearbody numChannels sampleRate frames.
  assert (Hfn : (0 <= frames * numChannels)%Z)
    by (apply Z.mul_nonneg_nonneg; lia).
  assert (Hsn : (0 <= sampleRate * numChannels)%Z)
    by (apply Z.mul_nonneg_nonneg; lia).
  change (2 ^ 32)%Z with 4294967296%Z in *.
  assert (Hsmall : forall v, (0 <= v < 4294967296)%Z ->
                             (v mod 256 ^ Z.of_nat 4 = v)%Z).
  { intros v Hv. apply Z.mod_small. exact Hv. }
  assert (Hsmall2 : forall v, (0 <= v < 65536)%Z ->
                              (v mod 256 ^ Z.of_nat 2 = v)%Z).
  { intros v Hv. apply Z.mod_small. exact Hv. }
  unfold getUint32, getUint16, wav_header. rewrite <- !app_assoc.
  split; [reflexivity|]. split.
  { read_field. rewrite Hsmall by lia. f_equal. lia. }
  split; [reflexivity|]. split.
  { read_field. now rewrite Hsmall by lia. }
  split.
  { read_field. now rewrite Hsmall2 by lia. }
  split.
  { read_field. now rewrite Hsmall2 by lia. }
  split.
  { read_field. now rewrite Hsmall by lia. }
  split.
  { read_field. now rewrite Hsmall by lia. }
  split.
  { read_field. now rewrite Hsmall2 by lia. }
  split.
  { read_field. now rewrite Hsmall2 by lia. }
  split; [reflexivity|]. split.
  { read_field. rewrite Hsmall by lia. f_equal. lia. }
  lia.
Qed.

(** The file of the session's one-second buffer. *)
Lemma wav_header_reads_back_witness :
  let bytes :=
    [82; 73; 70; 70; 44; 0; 0; 0; 87; 65; 86; 69; 102; 109; 116; 32;
     16; 0; 0; 0; 1; 0; 1; 0; 4; 0; 0; 0; 8; 0; 0; 0; 2; 0; 16; 0;
     100; 97; 116; 97; 8; 0; 0; 0;
     0; 0; 255; 63; 0; 128; 255; 31]%Z in
  take 4 bytes = codes "RIFF" /\
  getUint32 bytes 4 = Some (Z.of_nat (List.length bytes) - 8)%Z /\
  take 8 (drop 8 bytes) = codes "WAVEfmt " /\
  getUint32 bytes 16 = Some 16%Z /\
  getUint16 bytes 20 = Some 1%Z /\
  getUint16 bytes 22 = Some 1%Z /\
  getUint32 bytes 24 = Some 4%Z /\
  getUint32 bytes 28 = Some (4 * 1 * 2)%Z /\
  getUint16 bytes 32 = Some (1 * 2)%Z /\
  getUint16 bytes 34 = Some 16%Z /\
  take 4 (drop 36 bytes) = codes "data" /\
  getUint32 bytes 40 = Some (Z.of_nat (List.length bytes) - 44)%Z /\
  (Z.of_nat (List.length bytes) - 44 = 4 * (1 * 2))%Z.
Proof.
  intros bytes.
  apply (wav_header_reads_back Session.mix bytes);
    [reflexivity|reflexivity|split; [discriminate|reflexivity]
    |reflexivity|reflexivity].
Defined.

(** *** What the samples keep *)

Local Open Scope Q_scope.

Lemma Qtruncate_nonneg x : 0 <= x -> Qtruncate x = Qfloor x.
Proof.
  destruct x as [n d]. unfold Qtruncate, Qfloor, Qle. simpl. intros H.
  apply Z.quot_div_nonneg; lia.
Qed.

Lemma Qtruncate_nonpos x : x <= 0 -> Qtruncate x = Qceiling x.
Proof.
  destruct x as [n d]. unfold Qtruncate, Qceiling, Qfloor, Qle. simpl.
  intros H.
  replace n with (- (- n))%Z at 1 by lia.
  rewrite Z.quot_opp_l by lia. f_equal. apply Z.quot_div_nonneg; lia.
Qed.

Lemma Qtruncate_monotone x y : x <= y -> (Qtruncate x <= Qtruncate y)%Z.
Proof.
  intros Hxy.
  destruct (Qlt_le_dec x 0) as [Hx|Hx]; destruct (Qlt_le_dec y 0) as [Hy|Hy].
  - rewrite !Qtruncate_nonpos by lra. now apply Qceiling_resp_le.
  - rewrite (Qtruncate_nonpos x), (Qtruncate_nonneg y) by lra.
    transitivity 0%Z.
    + change 0%Z with (Qceiling 0). apply Qceiling_resp_le. lra.
    + change 0%Z with (Qfloor 0). now apply Qfloor_resp_le.
  - lra.
  - rewrite !Qtruncate_nonneg by lra. now apply Qfloor_resp_le.
Qed.

Lemma clamp_monotone x y : x <= y -> clamp x <= clamp y.
Proof.
  intros H. unfold clamp.
  apply Q.max_le_compat_l, Q.min_le_compat_l, H.
Qed.

Lemma scale_monotone x y : x <= y -> scale x <= scale y.
Proof.
  intros H.
  destruct (scale_cases x) as [[Hx ->]|[Hx ->]];
    destruct (scale_cases y) as [[Hy ->]|[Hy ->]]; lra.
Qed.

Lemma pcm_no_wrap x : ToInt16 (scale (clamp x)) = Qtruncate (scale (clamp x)).
Proof.
  apply ToInt16_in_range, Qtruncate_bounds, scale_bounds, clamp_bounds.
Qed.

(** X13. The encoder keeps the order of the samples: a sample that is not
    smaller is stored as an integer that is not smaller. *)
Theorem pcm_monotone (x y : Q) :
  x <= y ->
  (ToInt16 (scale (clamp x)) <= ToInt16 (scale (clamp y)))%Z.
Proof.
  intros H. rewrite !pcm_no_wrap.
  now apply Qtruncate_monotone, scale_monotone, clamp_monotone.
Qed.

Lemma pcm_monotone_witness :
  (ToInt16 (scale (clamp (-1 # 3))) <= ToInt16 (scale (clamp (7 # 2))))%Z.
Proof. apply (pcm_monotone (-1 # 3) (7 # 2)). discriminate. Defined.

(** X14. What 16 bits lose.  The stored integer is the scaled sample cut towards
    zero; read back on the scale it was written with, it is the clamped
    sample to within one step of 1/32767 and never further from zero; the
    extremes and silence are exact. *)
Theorem pcm_quantization (x : Q) :
  let sample := clamp x in
  let v := ToInt16 (scale sample) in
  (0 <= sample ->
   (0 <= v)%Z /\ inject_Z v <= sample * 32767 < inject_Z v + 1 /\
   sample - (1 # 32767) < unscale v <= sample) /\
  (sample < 0 ->
   (v <= 0)%Z /\ inject_Z v - 1 < sample * 32768 <= inject_Z v /\
   sample <= unscale v < sample + (1 # 32767) /\ unscale v <= 0) /\
  (1 <= x -> v = 32767%Z) /\
  (x <= -1 -> v = (-32768)%Z) /\
  (x == 0 -> v = 0%Z).
Proof.
  intros sample v. subst v sample. rewrite pcm_no_wrap.
  pose proof (clamp_bounds x) as [Hlo Hhi].
  remember (clamp x) as sample eqn:Hsample.
  split; [|split; [|split; [|split]]].
  - intros Hs.
    destruct (scale_cases sample) as [[Hneg _]|[_ Hsc]]; [lra|].
    rewrite Hsc. rewrite Qtruncate_nonneg by lra.
    pose proof (Qfloor_le (sample * 32767)) as Hfl.
    pose proof (Qlt_floor (sample * 32767)) as Hlt.
    rewrite inject_Z_plus in Hlt. change (inject_Z 1) with 1 in Hlt.
    assert (H0 : (0 <= Qfloor (sample * 32767))%Z).
    { change 0%Z with (Qfloor 0). apply Qfloor_resp_le. lra. }
    split; [exact H0|]. split; [split; [exact Hfl|exact Hlt]|].
    unfold unscale. rewrite (proj2 (Z.ltb_ge _ _) H0).
    split.
    + apply Qlt_shift_div_l; [reflexivity|]. lra.
    + apply Qle_shift_div_r; [reflexivity|]. lra.
  - intros Hs.
    destruct (scale_cases sample) as [[_ Hsc]|[Hpos _]]; [|lra].
    rewrite Hsc. rewrite Qtruncate_nonpos by lra.
    pose proof (Qle_ceiling (sample * 32768)) as Hce.
    pose proof (Qceiling_lt (sample * 32768)) as Hlt.
    unfold Z.sub in Hlt. rewrite inject_Z_plus in Hlt.
    change (inject_Z (- (1))) with (-1) in Hlt.
    assert (H0 : (Qceiling (sample * 32768) <= 0)%Z).
    { change 0%Z with (Qceiling 0). apply Qceiling_resp_le. lra. }
    split; [exact H0|]. split; [split; [exact Hlt|exact Hce]|].
    unfold unscale.
    destruct (Z.ltb_spec (Qceiling (sample * 32768)) 0) as [Hv|Hv].
    + split; [split|].
      * apply Qle_shift_div_l; [reflexivity|]. lra.
      * apply Qlt_shift_div_r; [reflexivity|]. lra.
      * apply Qle_shift_div_r; [reflexivity|].
        rewrite Zle_Qle in H0. change (inject_Z 0) with 0 in H0. lra.
    + assert (Hz : Qceiling (sample * 32768) = 0%Z) by lia.
      rewrite Hz in *.
      assert (Hq : inject_Z 0 / 32767 == 0) by reflexivity.
      rewrite Hq. change (inject_Z 0) with 0 in *.
      split; [split|]; lra.
  - intros Hx.
    assert (Hs : sample == 1).
    { apply Qle_antisym; [exact Hhi|]. rewrite Hsample. unfold clamp.
      apply Qle_trans with (Qmin 1 x); [|apply Q.le_max_r].
      apply Q.min_glb; [apply Qle_refl|exact Hx]. }
    destruct (scale_cases sample) as [[Hneg _]|[_ Hsc]]; [lra|].
    rewrite Hsc. rewrite Qtruncate_nonneg by lra.
    assert (H : sample * 32767 == inject_Z 32767) by (rewrite Hs; reflexivity).
    rewrite H. apply Qfloor_Z.
  - intros Hx.
    assert (Hs : sample == -1).
    { apply Qle_antisym; [|exact Hlo]. rewrite Hsample. unfold clamp.
      apply Q.max_lub; [apply Qle_refl|].
      apply Qle_trans with x; [apply Q.le_min_r|exact Hx]. }
    destruct (scale_cases sample) as [[_ Hsc]|[Hpos _]]; [|lra].
    rewrite Hsc. rewrite Qtruncate_nonpos by lra.
    assert (H : sample * 32768 == inject_Z (-32768))
      by (rewrite Hs; reflexivity).
    rewrite H. apply Qceiling_Z.
  - intros Hx.
    assert (Hs : sample == 0).
    { rewrite Hsample. unfold clamp. rewrite Hx. reflexivity. }
    destruct (scale_cases sample) as [[Hneg _]|[_ Hsc]]; [lra|].
    rewrite Hsc. rewrite Qtruncate_nonneg by lra.
    assert (H : sample * 32767 == inject_Z 0) by (rewrite Hs; reflexivity).
    rewrite H. apply Qfloor_Z.
Qed.

End WavRoundTrip.

(** ** Time labels and the marks of the ruler *)

Section TimeLabels.
Import Format.
Local Open Scope Q_scope.

Lemma Qfloor_unique (z : Z) (q : Q) :
  inject_Z z <= q -> q < inject_Z z + 1 -> Qfloor q = z.
Proof.
  intros Hlo Hhi. apply Z.le_antisymm.
  - apply Z.lt_succ_r. rewrite Zlt_Qlt. unfold Z.succ.
    rewrite inject_Z_plus. change (inject_Z 1) with 1.
    pose proof (Qfloor_le q). lra.
  - rewrite <- (Qfloor_Z z). now apply Qfloor_resp_le.
Qed.

Lemma Qfloor_ge (z : Z) (q : Q) : inject_Z z <= q <-> (z <= Qfloor q)%Z.
Proof.
  split; intros H.
  - rewrite <- (Qfloor_Z z). now apply Qfloor_resp_le.
  - rewrite Zle_Qle in H. pose proof (Qfloor_le q). lra.
Qed.

Lemma inject_Z_div_mod (f m : Z) :
  (0 < m)%Z ->
  inject_Z f == inject_Z m * inject_Z (f / m) + inject_Z (f mod m).
Proof.
  intros Hm. rewrite <- inject_Z_mult, <- inject_Z_plus.
  now rewrite <- Z.div_mod by lia.
Qed.

Lemma Qfloor_div (x : Q) (m : Z) :
  (0 < m)%Z -> Qfloor (x / inject_Z m) = (Qfloor x / m)%Z.
Proof.
  intros Hm.
  assert (Hmq : 0 < inject_Z m) by (now rewrite Zlt_Qlt in Hm).
  pose proof (Qfloor_le x) as Hlo. pose proof (Qlt_floor x) as Hhi.
  rewrite inject_Z_plus in Hhi. change (inject_Z 1) with 1 in Hhi.
  pose proof (inject_Z_div_mod (Qfloor x) m Hm) as Hdm.
  pose proof (Z.mod_pos_bound (Qfloor x) m Hm) as [Hr0 Hr1].
  rewrite Zle_Qle in Hr0. change (inject_Z 0) with 0 in Hr0.
  assert (Hr1' : inject_Z (Qfloor x mod m) + 1 <= inject_Z m).
  { change 1 with (inject_Z 1). rewrite <- inject_Z_plus, <- Zle_Qle. lia. }
  apply Qfloor_unique.
  - apply Qle_shift_div_l; [exact Hmq|]. nra.
  - apply Qlt_shift_div_r; [exact Hmq|]. nra.
Qed.

Lemma js_rem_floor (x : Q) (m : Z) :
  (0 < m)%Z -> 0 <= x ->
  0 <= js_rem x (inject_Z m) /\
  Qfloor (js_rem x (inject_Z m)) = (Qfloor x mod m)%Z.
Proof.
  intros Hm Hx.
  assert (Hmq : 0 < inject_Z m) by (now rewrite Zlt_Qlt in Hm).
  unfold js_rem.
  assert (Hq : 0 <= x / inject_Z m).
  { apply Qle_shift_div_l; [exact Hmq|]. lra. }
  rewrite Qtruncate_nonneg by exact Hq. rewrite Qfloor_div by exact Hm.
  pose proof (Qfloor_le x) as Hlo. pose proof (Qlt_floor x) as Hhi.
  rewrite inject_Z_plus in Hhi. change (inject_Z 1) with 1 in Hhi.
  pose proof (inject_Z_div_mod (Qfloor x) m Hm) as Hdm.
  pose proof (Z.mod_pos_bound (Qfloor x) m Hm) as [Hr0 Hr1].
  rewrite Zle_Qle in Hr0. change (inject_Z 0) with 0 in Hr0.
  split; [lra|]. apply Qfloor_unique; lra.
Qed.

Lemma decimal_parse (m : Z) :
  NilZero.int_of_string (decimal m) = Some (Z.to_int m).
Proof.
  unfold decimal. apply NilZero.isi; destruct m; simpl; try discriminate;
    intros [= Hnil]; exact (DecimalPos.Unsigned.to_uint_nonnil _ Hnil).
Qed.

Lemma decimal_digits (m : Z) :
  (0 <= m)%Z ->
  ((m < 10)%Z -> String.length (decimal m) = 1%nat) /\
  ((10 <= m)%Z -> (2 <= String.length (decimal m))%nat).
Proof.
  intros Hm. split; intros H.
  - rewrite <- (Z2Nat.id m) by lia.
    assert (Hn : (Z.to_nat m < 10)%nat) by lia.
    destruct (Z.to_nat m) as [|n]; [reflexivity|].
    do 9 (destruct n as [|n]; [reflexivity|]). lia.
  - destruct m as [|p|p]; try lia. unfold decimal. simpl.
    pose proof (DecimalPos.Unsigned.of_to p) as Hp.
    destruct (Pos.to_uint p) as [|u|u|u|u|u|u|u|u|u|u];
      [simpl in Hp; discriminate|..];
      (destruct u; simpl; try lia; simpl in Hp;
       first [discriminate|injection Hp as Hp; lia]).
Qed.

Lemma padStart2_minutes (m : Z) :
  (0 <= m)%Z ->
  padStart2 (decimal m)
  = if (m <? 10)%Z then ("0" +:+ decimal m)%string else decimal m.
Proof.
  intros Hm. destruct (decimal_digits m Hm) as [H1 H2]. unfold padStart2.
  destruct (Z.ltb_spec m 10) as [H|H].
  - now rewrite H1.
  - specialize (H2 H). destruct (String.length (decimal m)) as [|[|n]];
      [lia|lia|reflexivity].
Qed.

(** A padded number reads back as the number. *)
Lemma padStart2_parse (m : Z) :
  (0 <= m)%Z ->
  Z.of_int <$> NilZero.int_of_string (padStart2 (decimal m)) = Some m.
Proof.
  intros Hm. rewrite padStart2_minutes by exact Hm.
  destruct (Z.ltb_spec m 10) as [H|H].
  - rewrite <- (Z2Nat.id m) by lia.
    assert (Hn : (Z.to_nat m < 10)%nat) by lia.
    destruct (Z.to_nat m) as [|n]; [reflexivity|].
    do 9 (destruct n as [|n]; [reflexivity|]). lia.
  - rewrite decimal_parse. simpl. now rewrite DecimalZ.of_to.
Qed.

Lemma padStart2_inj (m1 m2 : Z) :
  (0 <= m1)%Z -> (0 <= m2)%Z ->
  padStart2 (decimal m1) = padStart2 (decimal m2) -> m1 = m2.
Proof.
  intros H1 H2 H.
  pose proof (padStart2_parse m1 H1) as E1.
  pose proof (padStart2_parse m2 H2) as E2.
  rewrite H in E1. congruence.
Qed.

Lemma padStart2_seconds (r : Z) :
  (0 <= r < 60)%Z -> String.length (padStart2 (decimal r)) = 2%nat.
Proof.
  intros Hr. rewrite <- (Z2Nat.id r) by lia.
  assert (Hn : (Z.to_nat r < 60)%nat) by lia.
  destruct (Z.to_nat r) as [|n]; [reflexivity|].
  do 59 (destruct n as [|n]; [reflexivity|]). lia.
Qed.

Lemma string_app_length (a b : string) :
  String.length (a +:+ b) = (String.length a + String.length b)%nat.
Proof. induction a as [|c a IH]; simpl; [reflexivity|now rewrite IH]. Qed.

Lemma string_app_inj_r (a b c d : string) :
  String.length b = String.length d ->
  (a +:+ b = c +:+ d)%string -> a = c /\ b = d.
Proof.
  intros Hlen. revert c. induction a as [|x a IH]; intros [|y c] H; simpl in H.
  - now split.
  - apply (f_equal String.length) in H. simpl in H.
    rewrite !string_app_length in H. simpl in H. lia.
  - apply (f_equal String.length) in H. simpl in H.
    rewrite !string_app_length in H. simpl in H. lia.
  - injection H as -> H. destruct (IH c H) as [-> ->]. now split.
Qed.

Lemma formatTime_nonneg (x : Q) :
  0 <= x ->
  formatTime x
  = (decimal (Qfloor x / 60) +:+ ":"
       +:+ padStart2 (decimal (Qfloor x mod 60)))%string.
Proof.
  intros Hx. unfold formatTime.
  destruct (Qeq_bool x 0) eqn:H0.
  - apply Qeq_bool_iff in H0. rewrite (Qfloor_comp _ _ H0). reflexivity.
  - change 60 with (inject_Z 60).
    rewrite Qfloor_div by lia.
    now rewrite (proj2 (js_rem_floor x 60 eq_refl Hx)).
Qed.


(** X15. The position label of the audio editor.  For a position that is not
    negative the label is the whole minutes, a colon and the remaining
    whole seconds on two digits; two positions get the same label exactly
    when they lie in the same whole second. *)
Theorem formatTime_whole_seconds (x y : Q) :
  0 <= x -> 0 <= y ->
  formatTime x
  = (decimal (Qfloor x / 60) +:+ ":"
       +:+ padStart2 (decimal (Qfloor x mod 60)))%string /\
  String.length (padStart2 (decimal (Qfloor x mod 60))) = 2%nat /\
  (formatTime x = formatTime y <-> Qfloor x = Qfloor y).
Proof.
  intros Hx Hy.
  pose proof (Z.mod_pos_bound (Qfloor x) 60 eq_refl) as Hrx.
  pose proof (Z.mod_pos_bound (Qfloor y) 60 eq_refl) as Hry.
  split; [now apply formatTime_nonneg|].
  split; [exact (padStart2_seconds _ Hrx)|].
  rewrite !formatTime_nonneg by assumption.
  split; [|now intros ->].
  intros H. apply string_app_inj_r in H.
  - destruct H as [Hm Hs]. apply decimal_inj in Hm.
    injection Hs as Hs. apply padStart2_inj in Hs; [|lia|lia].
    rewrite (Z.div_mod (Qfloor x) 60), (Z.div_mod (Qfloor y) 60) by lia.
    now rewrite Hm, Hs.
  - rewrite !string_app_length.
    now rewrite (padStart2_seconds _ Hrx), (padStart2_seconds _ Hry).
Qed.

Lemma formatTime_whole_seconds_witness :
  formatTime (251 # 2)
  = (decimal (Qfloor (251 # 2) / 60) +:+ ":"
       +:+ padStart2 (decimal (Qfloor (251 # 2) mod 60)))%string /\
  String.length (padStart2 (decimal (Qfloor (251 # 2) mod 60))) = 2%nat /\
  (formatTime (251 # 2) = formatTime (1256 # 10)
   <-> Qfloor (251 # 2) = Qfloor (1256 # 10)).
Proof. apply (formatTime_whole_seconds (251 # 2) (1256 # 10)); discriminate. Defined.

Example formatTime_examples :
  formatTime 0 = "0:00"%string /\
  formatTime (251 # 2) = "2:05"%string /\
  formatTime 3725 = "62:05"%string /\
  timelineFormatTime (251 # 2) = "02:05"%string /\
  formatDuration 3725 = "1:02:05"%string /\
  formatDuration (251 # 2) = "2:05"%string.
Proof. vm_compute. repeat split. Qed.

Lemma timelineFormatTime_nonneg (x : Q) :
  0 <= x ->
  timelineFormatTime x
  = (padStart2 (decimal (Qfloor x / 60)) +:+ ":"
       +:+ padStart2 (decimal (Qfloor x mod 60)))%string.
Proof.
  intros Hx. unfold timelineFormatTime.
  destruct (Qeq_bool x 0) eqn:H0.
  - apply Qeq_bool_iff in H0. rewrite (Qfloor_comp _ _ H0). reflexivity.
  - change 60 with (inject_Z 60).
    rewrite Qfloor_div by lia.
    now rewrite (proj2 (js_rem_floor x 60 eq_refl Hx)).
Qed.

(** X16. The labels of the sentence timeline.  The timeline pads the minutes
    to two digits: under ten minutes its label is the audio editor's with
    a 0 in front, from ten minutes on the two labels are the same; and as
    in the editor two times get the same label exactly when they lie in
    the same whole second, so the marks of the ruler, which are distinct
    whole seconds, never share a label. *)
Theorem timelineFormatTime_pads_minutes (x y : Q) :
  0 <= x -> 0 <= y ->
  timelineFormatTime x
  = (if (Qfloor x <? 600)%Z then ("0" +:+ formatTime x)%string
     else formatTime x) /\
  (timelineFormatTime x = timelineFormatTime y <-> Qfloor x = Qfloor y).
Proof.
  intros Hx Hy.
  assert (Hfx : (0 <= Qfloor x)%Z) by (now apply Qfloor_ge).
  assert (Hfy : (0 <= Qfloor y)%Z) by (now apply Qfloor_ge).
  pose proof (Z.mod_pos_bound (Qfloor x) 60 eq_refl) as Hrx.
  pose proof (Z.mod_pos_bound (Qfloor y) 60 eq_refl) as Hry.
  rewrite !timelineFormatTime_nonneg by assumption. split.
  - rewrite formatTime_nonneg by exact Hx.
    rewrite padStart2_minutes by (apply Z.div_pos; lia).
    destruct (Z.ltb_spec (Qfloor x) 600) as [H|H].
    + rewrite (proj2 (Z.ltb_lt _ _)) by (apply Z.div_lt_upper_bound; lia).
      reflexivity.
    + rewrite (proj2 (Z.ltb_ge _ _)) by (apply Z.div_le_lower_bound; lia).
      reflexivity.
  - split; [|now intros ->].
    intros H. apply string_app_inj_r in H.
    + destruct H as [Hm Hs].
      apply padStart2_inj in Hm; [|apply Z.div_pos; lia|apply Z.div_pos; lia].
      injection Hs as Hs. apply padStart2_inj in Hs; [|lia|lia].
      rewrite (Z.div_mod (Qfloor x) 60), (Z.div_mod (Qfloor y) 60) by lia.
      now rewrite Hm, Hs.
    + rewrite !string_app_length.
      now rewrite (padStart2_seconds _ Hrx), (padStart2_seconds _ Hry).
Qed.

Lemma timelineFormatTime_pads_minutes_witness :
  timelineFormatTime (251 # 2)
  = (if (Qfloor (251 # 2) <? 600)%Z
     then ("0" +:+ formatTime (251 # 2))%string
     else formatTime (251 # 2)) /\
  (timelineFormatTime (251 # 2) = timelineFormatTime 126
   <-> Qfloor (251 # 2) = Qfloor 126).
Proof.
  apply (timelineFormatTime_pads_minutes (251 # 2) 126); discriminate.
Defined.

(** X17. Durations in videoUtils.js.  For a duration that is not negative,
    with f its whole seconds, the parts shown are h = f / 3600,
    m = (f mod 3600) / 60 and s = f mod 60, which make up f again; the
    hours are shown, with the minutes then on two digits, exactly from one
    hour on, and below one hour the label is the one the audio editor
    gives. *)
Theorem formatDuration_parts (x : Q) :
  0 <= x ->
  let f := Qfloor x in
  let h := (f / 3600)%Z in
  let m := (f mod 3600 / 60)%Z in
  let s := (f mod 60)%Z in
  (3600 * h + 60 * m + s = f /\ 0 <= h /\ 0 <= m < 60 /\ 0 <= s < 60)%Z /\
  formatDuration x
  = (if (3600 <=? f)%Z
     then (decimal h +:+ ":" +:+ padStart2 (decimal m) +:+ ":"
             +:+ padStart2 (decimal s))%string
     else (decimal m +:+ ":" +:+ padStart2 (decimal s))%string) /\
  (x < 3600 -> formatDuration x = formatTime x).
Proof.
  intros Hx f h m s.
  assert (Hf : (0 <= f)%Z) by (now apply Qfloor_ge).
  assert (Hparts : (3600 * h + 60 * m + s = f /\ 0 <= h /\ 0 <= m < 60
                    /\ 0 <= s < 60)%Z).
  { subst h m s.
    pose proof (Z.div_mod f 3600 ltac:(lia)).
    pose proof (Z.mod_pos_bound f 3600 eq_refl).
    pose proof (Z.div_mod (f mod 3600) 60 ltac:(lia)).
    pose proof (Z.mod_pos_bound (f mod 3600) 60 eq_refl).
    pose proof (Z.mod_pos_bound f 60 eq_refl).
    assert (Hmm : ((f mod 3600) mod 60 = f mod 60)%Z).
    { apply Z.mod_mod_divide. exists 60%Z. reflexivity. }
    split; [lia|]. split; [apply Z.div_pos; lia|].
    split; [|lia]. split; [apply Z.div_pos; lia|].
    apply Z.div_lt_upper_bound; lia. }
  assert (Hshape : formatDuration x
    = (if (3600 <=? f)%Z
       then (decimal h +:+ ":" +:+ padStart2 (decimal m) +:+ ":"
               +:+ padStart2 (decimal s))%string
       else (decimal m +:+ ":" +:+ padStart2 (decimal s))%string)).
  { unfold formatDuration.
    destruct (Qeq_bool x 0) eqn:H0.
    - apply Qeq_bool_iff in H0. subst h m s f.
      rewrite (Qfloor_comp _ _ H0). reflexivity.
    - change 3600 with (inject_Z 3600). change 60 with (inject_Z 60).
      destruct (js_rem_floor x 3600 eq_refl Hx) as [Hr0 Hr].
      rewrite !Qfloor_div by lia. rewrite Hr.
      rewrite (proj2 (js_rem_floor x 60 eq_refl Hx)).
      fold f. fold h m s.
      destruct (Z.leb_spec 3600 f) as [H|H].
      + rewrite (proj2 (Z.ltb_lt 0 h)); [reflexivity|].
        subst h. apply Z.div_str_pos. lia.
      + rewrite (proj2 (Z.ltb_ge 0 h)); [reflexivity|].
        subst h. rewrite Z.div_small by lia. lia. }
  split; [exact Hparts|]. split; [exact Hshape|].
  intros Hlt. rewrite Hshape, formatTime_nonneg by exact Hx. fold f.
  assert (Hf' : (f < 3600)%Z).
  { apply Z.lt_le_trans with (Qfloor 3600); [|reflexivity].
    rewrite Zlt_Qlt. pose proof (Qfloor_le x). fold f in H.
    change (inject_Z (Qfloor 3600)) with 3600. lra. }
  rewrite (proj2 (Z.leb_gt _ _) Hf').
  subst m s. now rewrite (Z.mod_small f 3600) by lia.
Qed.

Lemma formatDuration_parts_witness :
  formatDuration 3725 = "1:02:05"%string.
Proof.
  destruct (formatDuration_parts 3725 ltac:(discriminate)) as (_ & H & _).
  exact H.
Defined.

End TimeLabels.

Section TimeMarkers.
Import Format.
Local Open Scope Q_scope.

Lemma marker_in_range (i step : Z) (duration : Q) :
  (0 < step)%Z ->
  Qle_bool (inject_Z (i * step)) duration
  = (i <=? Qfloor duration / step)%Z.
Proof.
  intros Hstep. apply eq_true_iff_eq.
  rewrite Qle_bool_iff, Qfloor_ge, Z.leb_le. split; intros H.
  - apply Z.div_le_lower_bound; lia.
  - pose proof (Z.mul_div_le (Qfloor duration) step Hstep). nia.
Qed.

Lemma markers_from_closed (step : Z) (duration : Q) (n : nat) :
  (0 < step)%Z ->
  forall (k : Z) (fuel : nat),
    (0 <= k)%Z ->
    (k + Z.of_nat n = Qfloor duration / step + 1)%Z ->
    (n < fuel)%nat ->
    markers_from fuel (k * step) step duration
    = Some ((fun j => Z.of_nat j * step)%Z <$> seq (Z.to_nat k) n).
Proof.
  intros Hstep. induction n as [|n IH]; intros k fuel Hk Hlast Hfuel;
    (destruct fuel as [|fuel]; [lia|]); simpl;
    rewrite marker_in_range by exact Hstep.
  - now rewrite (proj2 (Z.leb_gt _ _)) by lia.
  - rewrite (proj2 (Z.leb_le _ _)) by lia.
    replace (k * step + step)%Z with ((k + 1) * step)%Z by lia.
    rewrite (IH (k + 1)%Z fuel) by lia. simpl.
    rewrite Z2Nat.id by lia.
    now replace (Z.to_nat (k + 1)) with (S (Z.to_nat k)) by lia.
Qed.

(** X18. The marks of the time ruler.  For a positive duration the step is a
    whole number of seconds, at least 1, so the loop ends: with
    [last = floor(duration) / step] it tests its condition [last + 2]
    times and yields the [last + 1] marks [0, step, 2 step, ...,
    last * step], the multiples of the step that do not exceed the
    duration. *)
Theorem generateTimeMarkers_multiples (duration zoom : Q) (fuel : nat) :
  0 < duration -> 0 < zoom ->
  let step := interval duration zoom in
  let last := (Qfloor duration / step)%Z in
  (Z.to_nat last + 2 <= fuel)%nat ->
  (1 <= step)%Z /\
  generateTimeMarkers fuel duration zoom
  = Some ((fun j => Z.of_nat j * step)%Z <$> seq 0 (S (Z.to_nat last))) /\
  forall m : Z,
    m ∈ (fun j => Z.of_nat j * step)%Z <$> seq 0 (S (Z.to_nat last))
    <-> (0 <= m)%Z /\ inject_Z m <= duration /\ (step | m)%Z.
Proof.
  intros Hd Hz step last Hfuel.
  assert (Hstep : (1 <= step)%Z) by (subst step; unfold interval; apply Z.le_max_l).
  assert (Hf : (0 <= Qfloor duration)%Z) by (apply Qfloor_ge; change (inject_Z 0) with 0; lra).
  assert (Hlast : (0 <= last)%Z) by (subst last; apply Z.div_pos; lia).
  split; [exact Hstep|]. split.
  - unfold generateTimeMarkers.
    replace (Qeq_bool duration 0) with false.
    + fold step. change 0%Z with (0 * step)%Z at 1.
      rewrite (markers_from_closed step duration (S (Z.to_nat last)));
        [reflexivity|lia|lia|fold last; lia|lia].
    + symmetry. apply not_true_is_false. intros H.
      apply Qeq_bool_iff in H. lra.
  - intros m. rewrite list_elem_of_fmap. split.
    + intros (j & -> & Hj). apply elem_of_seq in Hj.
      split; [lia|]. split; [|now exists (Z.of_nat j)].
      apply Qle_bool_iff. rewrite marker_in_range by lia. apply Z.leb_le.
      fold last. lia.
    + intros (Hm & Hle & q & ->).
      assert (Hq : (0 <= q)%Z) by nia.
      exists (Z.to_nat q). split; [now rewrite Z2Nat.id|].
      apply elem_of_seq.
      apply Qle_bool_iff in Hle. rewrite marker_in_range in Hle by lia.
      apply Z.leb_le in Hle. fold last in Hle. lia.
Qed.

Lemma generateTimeMarkers_multiples_witness :
  generateTimeMarkers 9 (25 # 2) 50 = Some [0; 2; 4; 6; 8; 10; 12]%Z.
Proof.
  destruct (generateTimeMarkers_multiples (25 # 2) 50 9) as (_ & H & _);
    [reflexivity|reflexivity|vm_compute; lia|exact H].
Defined.

End TimeMarkers.

(** ** The name of the dubbed file *)

Section DownloadName.
Import Download.

Lemma split_not_nil sep s : split sep s <> [].
Proof.
  destruct s as [|c s]; simpl; [discriminate|].
  destruct (Ascii.eqb c sep); [discriminate|].
  destruct (split sep s); discriminate.
Qed.

Lemma split_app sep a b :
  split sep (a +:+ String sep b) = split sep a ++ split sep b.
Proof.
  induction a as [|c a IH]; simpl.
  - now rewrite Ascii.eqb_refl.
  - destruct (Ascii.eqb c sep); [now rewrite IH|].
    rewrite IH. pose proof (split_not_nil sep a) as Hne.
    destruct (split sep a); [contradiction|reflexivity].
Qed.

Lemma split_whole sep s : occurs sep s = false -> split sep s = [s].
Proof.
  induction s as [|c s IH]; simpl; [reflexivity|].
  intros H. apply orb_false_iff in H as [Hc Hs].
  now rewrite Hc, (IH Hs).
Qed.

Lemma pop_split_app sep a b :
  pop (split sep (a +:+ String sep b)) = pop (split sep b).
Proof.
  rewrite split_app. unfold pop.
  pose proof (split_not_nil sep b) as Hne.
  destruct (split sep b) as [|p ps]; [contradiction|].
  apply last_app_cons.
Qed.

Lemma occurs_app c a b : occurs c (a +:+ b) = occurs c a || occurs c b.
Proof.
  induction a as [|x a IH]; simpl; [reflexivity|].
  now rewrite IH, orb_assoc.
Qed.

Lemma string_app_assoc (a b c : string) :
  (a +:+ (b +:+ c) = (a +:+ b) +:+ c)%string.
Proof.
  induction a as [|x a IH]; [reflexivity|].
  change (String x (a +:+ (b +:+ c)) = String x ((a +:+ b) +:+ c)).
  now rewrite IH.
Qed.

Lemma truthy_Some s : s <> EmptyString -> truthy (Some s) = true.
Proof.
  intros H. simpl. apply negb_true_iff, String.eqb_neq, H.
Qed.

(** X19. The name under which the dubbed audio is downloaded.  The name is
    what follows the last slash of the path, as long as that is not empty;
    a path without a slash is therefore taken whole, with whatever
    backslashes it holds.  The split at backslashes is used only for a path
    that ends in a slash, and then yields what follows the last backslash,
    the final slash included. *)
Theorem filename_cases (dir base : string) :
  occurs "/" base = false ->
  (base <> EmptyString ->
   filename (dir +:+ "/" +:+ base) = Some base /\
   filename base = Some base) /\
  (occurs backslash base = false ->
   filename (dir +:+ String backslash base +:+ "/")
   = Some (base +:+ "/")%string).
Proof.
  intros Hbase. split.
  - intros Hne. unfold filename, js_or.
    change (dir +:+ "/" +:+ base)%string with (dir +:+ String "/" base)%string.
    rewrite pop_split_app, (split_whole "/" base Hbase).
    change (pop [base]) with (Some base).
    now rewrite truthy_Some.
  - intros Hback. unfold filename, js_or.
    change (dir +:+ String backslash base +:+ "/")%string
      with (dir +:+ String backslash (base +:+ "/"))%string.
    rewrite (pop_split_app backslash), (split_whole backslash)
      by (now rewrite occurs_app, Hback).
    replace (dir +:+ String backslash (base +:+ "/"))%string
      with ((dir +:+ String backslash base) +:+ String "/" EmptyString)%string
      by (now rewrite <- string_app_assoc).
    rewrite pop_split_app. reflexivity.
Qed.

Lemma filename_cases_witness :
  filename "/srv/output/dubbed.wav" = Some "dubbed.wav"%string /\
  filename "C:\output\dubbed.wav" = Some "C:\output\dubbed.wav"%string.
Proof.
  split.
  - exact (proj1 (proj1 (filename_cases "/srv/output" "dubbed.wav" eq_refl)
                    ltac:(discriminate))).
  - exact (proj2 (proj1 (filename_cases "" "C:\output\dubbed.wav" eq_refl)
                    ltac:(discriminate))).
Defined.

End DownloadName.
